(** * holoviews.ipython.parser: the magic line parsers

    A shallow embedding of [holoviews/ipython/parser.py]: the shared
    [Parser] helpers ([_strip_commas], [collect_tokens], [todict]) and the
    two line parsers [OptsSpec] and [CompositorSpec].

    The pyparsing grammar objects and Python's [eval] are collaborators
    outside this module.  They enter the development as parameters: a
    grammar is a [ParserElement] (its [scanString] and [parseString]), and
    the evaluator is a function from the evaluated text to the resulting
    mapping, if any.  Everything the module itself computes (token
    collection, grouping, validation, the order of checks and the
    exceptions raised) is written out. *)

From Stdlib Require Import Ascii String List Arith Bool Lia.
From stdpp Require Import base option list strings gmap.

Set Default Proof Using "Type".
Set Warnings "-register-all".

(** ** Python values and exceptions *)

(** Values that a keyword list can evaluate to. *)
Inductive pyval :=
  | PyNone
  | PyBool (b : bool)
  | PyInt (z : Z)
  | PyStr (s : string)
  | PyTuple (items : list pyval)
  | PyList (items : list pyval).

(** The exceptions that leave the module.  [ParseException] is pyparsing's
    own; the others are Python built-ins. *)
Inductive exn :=
  | SyntaxError (msg : string)
  | IndexError (msg : string)
  | KeyError (key : string)
  | TypeError
  | AttributeError
  | ParseException.

Inductive result (A : Type) :=
  | Ok (a : A)
  | Err (e : exn).
Arguments Ok {A} a.
Arguments Err {A} e.

(** Sequencing: an exception ends the computation. *)
Definition bind {A B} (m : result A) (f : A → result B) : result B :=
  match m with
  | Ok a => f a
  | Err e => Err e
  end.

Notation "'let*' x ':=' m 'in' k" := (bind m (λ x, k))
  (at level 10, x name, m at level 100, k at level 200,
   format "'[v' 'let*'  x  :=  m  'in' '/' k ']'").

Definition is_Ok {A} (r : result A) : Prop := ∃ a, r = Ok a.

Definition is_SyntaxError {A} (r : result A) : Prop :=
  ∃ msg, r = Err (SyntaxError msg).

(** A [for] loop whose body may raise: the state is threaded through the
    items in order and the first exception ends the loop. *)
Fixpoint for_each {A S : Type} (body : S → A → result S)
    (items : list A) (st : S) : result S :=
  match items with
  | [] => Ok st
  | x :: rest => let* st' := body st x in for_each body rest st'
  end.

(** ** Python string primitives *)

Module Py.

(** [str.isspace] on a single ASCII character. *)
Definition is_space (c : ascii) : bool :=
  let n := nat_of_ascii c in
  ((9 <=? n) && (n <=? 13)) || ((28 <=? n) && (n <=? 32)).

Fixpoint lstrip (s : string) : string :=
  match s with
  | EmptyString => EmptyString
  | String c rest => if is_space c then lstrip rest else s
  end.

Fixpoint rstrip (s : string) : string :=
  match s with
  | EmptyString => EmptyString
  | String c rest =>
      match rstrip rest with
      | EmptyString => if is_space c then EmptyString else String c EmptyString
      | r => String c r
      end
  end.

(** [s.strip()] *)
Definition strip (s : string) : string := rstrip (lstrip s).

(** [s[0]] and [s[-1]]; [None] stands for the index being out of range. *)
Definition first (s : string) : option ascii :=
  match s with
  | EmptyString => None
  | String c _ => Some c
  end.

Fixpoint last (s : string) : option ascii :=
  match s with
  | EmptyString => None
  | String c EmptyString => Some c
  | String _ rest => last rest
  end.

(** [s[1:]] *)
Definition tail (s : string) : string :=
  match s with
  | EmptyString => EmptyString
  | String _ rest => rest
  end.

(** [s[:-1]] *)
Fixpoint init (s : string) : string :=
  match s with
  | EmptyString => EmptyString
  | String _ EmptyString => EmptyString
  | String c rest => String c (init rest)
  end.

(** [s[:e]] and [s[e:]] for a non-negative [e]. *)
Fixpoint take (e : nat) (s : string) : string :=
  match e, s with
  | S e', String c rest => String c (take e' rest)
  | _, _ => EmptyString
  end.

Fixpoint drop (e : nat) (s : string) : string :=
  match e, s with
  | S e', String _ rest => drop e' rest
  | _, _ => s
  end.

(** [c in s] for a one-character [c]. *)
Fixpoint contains (c : ascii) (s : string) : bool :=
  match s with
  | EmptyString => false
  | String c' rest => Ascii.eqb c c' || contains c rest
  end.

(** [s.endswith(suffix)] *)
Definition endswith (suffix s : string) : bool :=
  String.eqb (drop (String.length s - String.length suffix) s) suffix
  && (String.length suffix <=? String.length s).

(** [sep.join(items)] for a list of strings. *)
Fixpoint join (sep : string) (items : list string) : string :=
  match items with
  | [] => EmptyString
  | [x] => x
  | x :: rest => x +:+ sep +:+ join sep rest
  end.

Definition backslash : ascii := ascii_of_nat 92.
Definition dquote : ascii := ascii_of_nat 34.
Definition squote : ascii := ascii_of_nat 39.

Definition escape (c : ascii) : string :=
  String backslash (String c EmptyString).

Definition hex_digit (n : nat) : ascii :=
  ascii_of_nat (if n <? 10 then 48 + n else 87 + n).

(** One character of [repr(s)] with [q] the chosen quote. *)
Definition repr_char (q c : ascii) : string :=
  let n := nat_of_ascii c in
  if Ascii.eqb c q || Ascii.eqb c backslash then escape c
  else if n =? 9 then escape "t"
  else if n =? 10 then escape "n"
  else if n =? 13 then escape "r"
  else if (n <? 32) || (126 <? n) then
    escape "x" +:+
    String (hex_digit (n / 16)) (String (hex_digit (n mod 16)) EmptyString)
  else String c EmptyString.

Fixpoint repr_body (q : ascii) (s : string) : string :=
  match s with
  | EmptyString => EmptyString
  | String c rest => repr_char q c +:+ repr_body q rest
  end.

(** [repr(s)], the [%r] conversion: single quotes unless the text holds
    a single quote and no double quote; bytes outside printable ASCII
    are written as hexadecimal escapes. *)
Definition repr (s : string) : string :=
  let q := if contains squote s && negb (contains dquote s)
           then dquote else squote in
  String q (repr_body q s) +:+ String q EmptyString.

End Py.


(** ** Parse results *)

(** What [ParseResults.asList()] returns: strings and nested lists. *)
Inductive ptoken :=
  | PStr (s : string)
  | PList (items : list ptoken).

(** [''.join(items)] on the children of a parse result: a nested list
    among them is a [TypeError]. *)
Fixpoint join_tokens (sep : string) (items : list ptoken) : result string :=
  match items with
  | [] => Ok EmptyString
  | PList _ :: _ => Err TypeError
  | [PStr s] => Ok s
  | PStr s :: rest => let* r := join_tokens sep rest in Ok (s +:+ sep +:+ r)
  end.

(** [xs[-1]] and [xs[-1] = v] on a list. *)
Definition list_last {A} (xs : list A) : result A :=
  match last xs with
  | Some x => Ok x
  | None => Err (IndexError "list index out of range")
  end.

Definition set_last {A} (xs : list A) (v : A) : list A :=
  <[pred (length xs) := v]> xs.

(** [itertools.groupby(items, key)]: the maximal runs of consecutive items
    with the same key, in order. *)
Fixpoint groupby {A} (key : A → bool) (items : list A) : list (bool * list A) :=
  match items with
  | [] => []
  | x :: rest =>
      match groupby key rest with
      | (k, run) :: runs =>
          if Bool.eqb (key x) k then (k, x :: run) :: runs
          else (key x, [x]) :: (k, run) :: runs
      | [] => [(key x, [x])]
      end
  end.

(** ** class Parser *)

Module Parser.

(** [kw[i]]: indexing past the end of a string is an [IndexError]. *)
Definition index_str (c : option ascii) : result ascii :=
  match c with
  | Some c => Ok c
  | None => Err (IndexError "string index out of range")
  end.

(** [_strip_commas]: strip out any leading/trailing commas from the
    token. *)
Definition _strip_commas (kw : string) : result string :=
  let* c := index_str (Py.last kw) in
  let kw := if Ascii.eqb c "," then Py.init kw else kw in
  let* c0 := index_str (Py.first kw) in
  Ok (if Ascii.eqb c0 "," then Py.tail kw else kw).

(** [inner % text] *)
Definition inner (mode text : string) : string :=
  if String.eqb mode "parens" then "(" +:+ text +:+ ")"
  else "[" +:+ text +:+ "]".

(** The body of the loop of [collect_tokens]. *)
Definition collect_step (mode : string) (tokens : list string)
    (token : ptoken) : result (list string) :=
  match token with
  | PList items =>
      let* prev := list_last tokens in
      let* text := join_tokens "" items in
      Ok (set_last tokens (prev +:+ inner mode text))
  | PStr s =>
      if String.eqb (Py.strip s) "," then Ok tokens
      else let* kw := _strip_commas s in Ok (tokens ++ [kw])
  end.

(** [collect_tokens]: collect the tokens from a (potentially) nested
    parse result. *)
Definition collect_tokens (parseresult : option (list ptoken))
    (mode : string) : result (list string) :=
  match parseresult with
  | None => Ok []
  | Some children => for_each (collect_step mode) children []
  end.

(** The body of the grouping loop of [todict]. *)
Definition group_step (grouped : list string)
    (group : bool * list string) : result (list string) :=
  let '(val, items) := group in
  if val then Ok (grouped ++ items)
  else let* prev := list_last grouped in
       Ok (set_last grouped (prev +:+ Py.join "" items)).

Definition group_tokens (tokens : list string) : result (list string) :=
  for_each group_step (groupby (Py.contains "=") tokens) [].

Section Todict.

(** [eval(text, cls.namespace)] followed by [kwargs.update]: the
    mapping to merge, or [None] when either step raises. *)
Variable eval : string → option (gmap string pyval).

Definition eval_step (kwargs : gmap string pyval)
    (keyword : string) : result (gmap string pyval) :=
  match eval ("dict(" +:+ keyword +:+ ")") with
  | Some d => Ok (d ∪ kwargs)
  | None =>
      Err (SyntaxError ("Could not evaluate keyword: " +:+ Py.repr keyword))
  end.

(** [todict]: the dictionary of the keywords of a parse result. *)
Definition todict (parseresult : option (list ptoken))
    (mode : string) : result (gmap string pyval) :=
  let* tokens := collect_tokens parseresult mode in
  let* grouped := group_tokens tokens in
  for_each eval_step grouped ∅.

End Todict.

End Parser.


(** ** The pyparsing interface *)

(** A grammar object as the parsers use it.  [scanString] gives the
    matches found anywhere in the text as [(tokens, start, end)];
    [parseString] parses from the start of the text and gives the matched
    groups, or raises pyparsing's [ParseException]. *)
Record ParserElement (G : Type) := {
  scanString : string → list (list G * nat * nat);
  parseString : string → result (list G);
}.
Arguments scanString {G} _ _.
Arguments parseString {G} _ _.

(** The check that opens both [parse] methods: exactly one match, and
    nothing but whitespace after it. *)
Definition check_line {G} (grammar : ParserElement G)
    (line : string) : result unit :=
  match scanString grammar line with
  | [(k, s, e)] =>
      let processed := Py.take e line in
      if negb (String.eqb (Py.strip processed) (Py.strip line)) then
        Err (SyntaxError ("Failed to parse remainder of string: "
                          +:+ Py.repr (Py.drop e line)))
      else Ok ()
  | _ => Err (SyntaxError "Invalid specification syntax.")
  end.

(** Modelled from the spec: the options-value constructor [Options], which
    takes a settings mapping and produces an options object. *)
Record Options := mkOptions { options_kwargs : gmap string pyval }.

(** ** class OptsSpec *)

Module OptsSpec.

(** One group matched by [spec_group].  A block that is present holds
    the list form of the first item of its named result
    ([group[name][0].asList()]). *)
Record spec_group := {
  pathspec : string;
  norm_options : option (list ptoken);
  plot_options : option (list ptoken);
  style_options : option (list ptoken);
}.

Definition options : list string :=
  ["+mapwise"; "-mapwise"; "+groupwise"; "-groupwise"].

Definition excluded : list (string * string) :=
  [("+mapwise", "-mapwise"); ("+groupwise", "-groupwise")].

(** [token == s]: a nested list never equals a string. *)
Definition is_str (s : string) (token : ptoken) : bool :=
  match token with
  | PStr s' => String.eqb s' s
  | PList _ => false
  end.

(** [opts.count(s)] and [s in opts] *)
Definition count (s : string) (opts : list ptoken) : nat :=
  length (List.filter (is_str s) opts).

Definition mem (s : string) (opts : list ptoken) : bool :=
  existsb (is_str s) opts.

(** [opt in options] *)
Definition in_options (opt : ptoken) : bool :=
  existsb (λ o, is_str o opt) options.

(** [len(opts) == 1 and opts[0].endswith(suffix)] *)
Definition single_endswith (suffix : string)
    (opts : list ptoken) : result bool :=
  if length opts =? 1 then
    match opts with
    | PStr s :: _ => Ok (Py.endswith suffix s)
    | PList _ :: _ => Err AttributeError
    | [] => Err (IndexError "list index out of range")
    end
  else Ok false.

(** [dict(groupwise=groupwise, mapwise=mapwise)] *)
Definition settings (groupwise mapwise : bool) : gmap string pyval :=
  <["groupwise" := PyBool groupwise]> (<["mapwise" := PyBool mapwise]> ∅).

Definition check_repeated (opts : list ptoken) (_ : ()) (normopt : string)
    : result () :=
  if 1 <? count normopt opts then
    Err (SyntaxError ("Normalization specification must not contain repeated "
                      +:+ Py.repr normopt))
  else Ok ().

Definition check_excluded (opts : list ptoken) (_ : ())
    (pair : string * string) : result () :=
  if mem pair.1 opts && mem pair.2 opts then
    Err (SyntaxError ("Normalization specification cannot contain both "
                      +:+ pair.1 +:+ " and " +:+ pair.2))
  else Ok ().

(** [process_normalization]: validate the option list of a normalization
    block and compute the normalization settings. *)
Definition process_normalization (parse_group : spec_group)
    : result (option (gmap string pyval)) :=
  match norm_options parse_group with
  | None => Ok None
  | Some [] => Ok None
  | Some opts =>
      let* _ := for_each (check_repeated opts) options () in
      if negb (forallb in_options opts) then
        Err (SyntaxError ("Normalization option not one of "
                          +:+ Py.join ", " options))
      else
      let* _ := for_each (check_excluded opts) excluded () in
      let* is_map := single_endswith "mapwise" opts in
      if is_map then
        Ok (Some (settings true (mem "+mapwise" opts)))
      else
      let* is_group := single_endswith "groupwise" opts in
      if is_group then
        Ok (Some (settings (mem "+groupwise" opts) true))
      else
        Ok (Some (settings (mem "+groupwise" opts) (mem "+mapwise" opts)))
  end.

Section Parse.

Variable eval : string → option (gmap string pyval).
Variable opts_spec : ParserElement spec_group.

(** The body of the loop of [parse]: the options of one group. *)
Definition group_options (group : spec_group)
    : result (gmap string Options) :=
  let* normalization := process_normalization group in
  let options : gmap string Options :=
    match normalization with
    | Some n => <["norm" := mkOptions n]> ∅
    | None => ∅
    end in
  let* options :=
    match plot_options group with
    | Some plotopts =>
        let* kw := Parser.todict eval (Some plotopts) "brackets" in
        Ok (<["plot" := mkOptions kw]> options)
    | None => Ok options
    end in
  match style_options group with
  | Some styleopts =>
      let* kw := Parser.todict eval (Some styleopts) "parens" in
      Ok (<["style" := mkOptions kw]> options)
  | None => Ok options
  end.

Definition parse_step (parse : gmap string (gmap string Options))
    (group : spec_group) : result (gmap string (gmap string Options)) :=
  let* options := group_options group in
  Ok (<[pathspec group := options]> parse).

(** [parse]: parse an options specification, returning a dictionary
    with path keys and [{'plot': .., 'style': ..}] values. *)
Definition parse (line : string)
    : result (gmap string (gmap string Options)) :=
  let* _ := check_line opts_spec line in
  let* groups := parseString opts_spec line in
  for_each parse_step groups ∅.

End Parse.

End OptsSpec.


(** ** class CompositorSpec *)

(** Modelled from the spec: the compositor-definition constructor
    [Compositor(overlay_spec_text, operation_reference, value_name, mode,
    **settings)], as the record of its arguments. *)
Record Compositor (operation : Type) := mkCompositor {
  comp_pattern : string;
  comp_operation : operation;
  comp_value : string;
  comp_mode : string;
  comp_kwargs : gmap string pyval;
}.
Arguments mkCompositor {operation} _ _ _ _ _.
Arguments comp_pattern {operation} _.
Arguments comp_operation {operation} _.
Arguments comp_value {operation} _.
Arguments comp_mode {operation} _.
Arguments comp_kwargs {operation} _.

Module CompositorSpec.

(** One group matched by [compositor_spec].  [spec] is
    [group['spec'].asList()[0]] and [op_settings], when present, is
    the list form of [group['op_settings'][0]]. *)
Record comp_group := {
  mode : option string;
  op : string;
  spec : list ptoken;
  value : string;
  op_settings : option (list ptoken);
}.

Section Parse.

Variable eval : string → option (gmap string pyval).
Variable compositor_spec : ParserElement comp_group.

(** [Compositor.operations]: the registered operations and their
    [__name__]. *)
Variable operation : Type.
Variable name : operation → string.
Variable operations : list operation.

(** [{op.__name__: op for op in Compositor.operations}] *)
Definition opmap : gmap string operation :=
  foldl (λ m o, <[name o := o]> m) ∅ operations.

(** [opmap[key]] *)
Definition getitem (m : gmap string operation) (key : string)
    : result operation :=
  match m !! key with
  | Some o => Ok o
  | None => Err (KeyError key)
  end.

(** The body of the loop of [parse]: the definition of one group. *)
Definition group_definition (opmap : gmap string operation)
    (group : comp_group) : result (Compositor operation) :=
  match mode group with
  | None =>
      Err (SyntaxError "Either data or display mode must be specified.")
  | Some mode =>
      if negb (String.eqb mode "data" || String.eqb mode "display") then
        Err (SyntaxError "Either data or display mode must be specified.")
      else
      let* operation := getitem opmap (op group) in
      let* spec := join_tokens " " (spec group) in
      if negb (bool_decide (is_Some (opmap !! op group))) then
        Err (SyntaxError ("Operation " +:+ op group
                          +:+ " not available for use with compositors."))
      else
      let* kwargs :=
        match op_settings group with
        | Some settings => Parser.todict eval (Some settings) "brackets"
        | None => Ok ∅
        end in
      Ok (mkCompositor spec operation (value group) mode kwargs)
  end.

Definition parse_step (opmap : gmap string operation)
    (definitions : list (Compositor operation)) (group : comp_group)
    : result (list (Compositor operation)) :=
  let* definition := group_definition opmap group in
  Ok (definitions ++ [definition]).

(** [parse]: parse compositor specifications, returning a list of
    compositors. *)
Definition parse (line : string) : result (list (Compositor operation)) :=
  let* _ := check_line compositor_spec line in
  let opmap := opmap in
  let* groups := parseString compositor_spec line in
  for_each (parse_step opmap) groups [].

End Parse.

End CompositorSpec.

(** * A reference reading of the collaborators

    The parsers above are stated for any grammar object and any
    evaluator.  To run them on concrete lines, this part gives one reading
    of the grammar objects that the two classes build from pyparsing's
    combinators, by recursive descent, and an evaluator for keyword lists
    of integer literals. *)

Module Pyparsing.

Definition parser (A : Type) := string → option (A * string).

(** pyparsing's default whitespace characters. *)
Definition white (c : ascii) : bool :=
  let n := nat_of_ascii c in
  (n =? 32) || (n =? 10) || (n =? 9) || (n =? 13).

Fixpoint skip_white (s : string) : string :=
  match s with
  | String c rest => if white c then skip_white rest else s
  | EmptyString => EmptyString
  end.

(** The longest prefix of characters that satisfy [p], and what follows. *)
Fixpoint span (p : ascii → bool) (s : string) : string * string :=
  match s with
  | String c rest =>
      if p c then let '(w, rest') := span p rest in (String c w, rest')
      else (EmptyString, s)
  | EmptyString => (EmptyString, EmptyString)
  end.

(** What is left of [s] after the prefix [lit], if [s] starts with it. *)
Fixpoint after (lit s : string) : option string :=
  match lit, s with
  | EmptyString, _ => Some s
  | String a lit', String b s' => if Ascii.eqb a b then after lit' s' else None
  | String _ _, EmptyString => None
  end.

Definition starts (lit s : string) : bool :=
  match after lit s with Some _ => true | None => false end.

Definition alphas : string :=
  "abcdefghijklmnopqrstuvwxyzABCDEFGHIJKLMNOPQRSTUVWXYZ".
Definition nums : string := "0123456789".
Definition alphanums : string := alphas +:+ nums.

(** [Word(chars)] *)
Definition Word (chars : string) : parser string := λ s,
  match span (λ c, Py.contains c chars) (skip_white s) with
  | (EmptyString, _) => None
  | (w, rest) => Some (w, rest)
  end.

(** [Literal(lit)] *)
Definition Literal (lit : string) : parser string := λ s,
  match after lit (skip_white s) with
  | Some rest => Some (lit, rest)
  | None => None
  end.

(** [MatchFirst(alternatives)] *)
Fixpoint MatchFirst {A} (alternatives : list (parser A)) : parser A := λ s,
  match alternatives with
  | [] => None
  | p :: rest =>
      match p s with
      | Some r => Some r
      | None => MatchFirst rest s
      end
  end.

(** [Optional(p)] *)
Definition Optional {A} (p : parser A) : parser (option A) := λ s,
  match p s with
  | Some (a, rest) => Some (Some a, rest)
  | None => Some (None, s)
  end.

(** [OneOrMore(p)], for a [p] that consumes text when it matches. *)
Fixpoint more {A} (fuel : nat) (p : parser A) (s : string) : list A * string :=
  match fuel with
  | 0 => ([], s)
  | S fuel =>
      match p s with
      | Some (a, rest) => let '(l, rest') := more fuel p rest in (a :: l, rest')
      | None => ([], s)
      end
  end.

Definition OneOrMore {A} (p : parser A) : parser (list A) := λ s,
  match more (S (String.length s)) p s with
  | ([], _) => None
  | (l, rest) => Some (l, rest)
  end.

(** The default content of [nestedExpr] without [ignoreExpr]: characters
    other than whitespace, up to the next opener or closer. *)
Fixpoint run (opener closer s : string) : string * string :=
  match s with
  | String c rest =>
      if white c || starts opener s || starts closer s then (EmptyString, s)
      else let '(w, rest') := run opener closer rest in (String c w, rest')
  | EmptyString => (EmptyString, EmptyString)
  end.

Definition default_content (opener closer : string) : parser (list string) := λ s,
  match run opener closer (skip_white s) with
  | (EmptyString, _) => None
  | (w, rest) => Some ([w], rest)
  end.

(** The items of a nested expression after its opener, up to and
    including its closer. *)
Fixpoint items (fuel : nat) (opener closer : string)
    (content : parser (list string)) (s : string) : option (list ptoken * string) :=
  match fuel with
  | 0 => None
  | S fuel =>
      let s := skip_white s in
      match after opener s with
      | Some s1 =>
          match items fuel opener closer content s1 with
          | Some (inner, s2) =>
              match items fuel opener closer content s2 with
              | Some (rest, s3) => Some (PList inner :: rest, s3)
              | None => None
              end
          | None => None
          end
      | None =>
          match content s with
          | Some (toks, s1) =>
              match items fuel opener closer content s1 with
              | Some (rest, s2) => Some ((PStr <$> toks) ++ rest, s2)
              | None => None
              end
          | None =>
              match after closer s with
              | Some s1 => Some ([], s1)
              | None => None
              end
          end
      end
  end.

(** [nestedExpr(opener, closer, content)]: the list form of the group. *)
Definition nestedExpr (opener closer : string)
    (content : parser (list string)) : parser (list ptoken) := λ s,
  match after opener (skip_white s) with
  | Some s1 => items (S (String.length s1)) opener closer content s1
  | None => None
  end.

(** The position in [line] at which the suffix [rest] begins. *)
Definition position (line rest : string) : nat :=
  String.length line - String.length rest.

(** [scanString]: the matches of [p] in [line] from [loc] on. *)
Fixpoint scan {A} (fuel : nat) (p : parser A) (line : string) (loc : nat)
    : list (A * nat * nat) :=
  match fuel with
  | 0 => []
  | S fuel =>
      if String.length line <? loc then []
      else
        let pre := skip_white (Py.drop loc line) in
        let preloc := position line pre in
        match p pre with
        | Some (tokens, rest) =>
            let nextLoc := position line rest in
            if loc <? nextLoc then
              (tokens, preloc, nextLoc) :: scan fuel p line nextLoc
            else scan fuel p line (preloc + 1)
        | None => scan fuel p line (preloc + 1)
        end
  end.

(** The grammar object of a parser. *)
Definition element {G} (p : parser (list G)) : ParserElement G :=
  {| scanString line := scan (String.length line + 2) p line 0;
     parseString line :=
       match p line with
       | Some (groups, _) => Ok groups
       | None => Err ParseException
       end |}.

End Pyparsing.

(** The grammar objects of [OptsSpec] and [CompositorSpec], with the
    names they have in the source.  Quoted strings ([quotedString]) are
    not read: a short plot block that holds a quote character does not
    match. *)
Module Grammar.
Import Pyparsing.

Definition ascii_uppercase : string := "ABCDEFGHIJKLMNOPQRSTUVWXYZ".

Definition allowed : string :=
  "0123456789abcdefghijklmnopqrstuvwxyzABCDEFGHIJKLMNOPQRSTUVWXYZ!#$%&"
  +:+ String Py.backslash "()*+,-./:;<=>?@" +:+ String Py.backslash "^_`{|}~".

Definition plot_options_short : parser (list ptoken) :=
  nestedExpr "[" "]" (OneOrMore (Word allowed)).

Definition plot_options_long : parser (list ptoken) :=
  nestedExpr "plot(" ")" (default_content "plot(" ")").

Definition plot_options : parser (list ptoken) :=
  MatchFirst [plot_options_short; plot_options_long].

Definition style_options_short : parser (list ptoken) :=
  nestedExpr "(" ")" (default_content "(" ")").

Definition style_options_long : parser (list ptoken) :=
  nestedExpr "style(" ")" (default_content "style(" ")").

Definition style_options : parser (list ptoken) :=
  MatchFirst [style_options_short; style_options_long].

Definition norm_options_short : parser (list ptoken) :=
  nestedExpr "{" "}" (default_content "{" "}").

Definition norm_options_long : parser (list ptoken) :=
  nestedExpr "norm(" ")" (default_content "norm(" ")").

Definition norm_options : parser (list ptoken) :=
  MatchFirst [norm_options_short; norm_options_long].

(** [Combine(Word(ascii_uppercase, exact=1) + Word(alphanums+'._'))] *)
Definition dotted_path : parser string := λ s,
  match skip_white s with
  | String c rest =>
      if Py.contains c ascii_uppercase then
        match span (λ c, Py.contains c (alphanums +:+ "._")) rest with
        | (EmptyString, _) => None
        | (w, rest') => Some (String c w, rest')
        end
      else None
  | EmptyString => None
  end.

(** [Optional(norm_options) & Optional(plot_options) &
    Optional(style_options)]: the blocks in any order, each at most
    once. *)
Fixpoint blocks (fuel : nat) (found : OptsSpec.spec_group) (s : string)
    : OptsSpec.spec_group * string :=
  match fuel with
  | 0 => (found, s)
  | S fuel =>
      let try {A} (seen : option A) (p : parser (list ptoken)) :=
        match seen with Some _ => None | None => p s end in
      match try (OptsSpec.norm_options found) norm_options with
      | Some (l, rest) =>
          blocks fuel {| OptsSpec.pathspec := OptsSpec.pathspec found;
                         OptsSpec.norm_options := Some l;
                         OptsSpec.plot_options := OptsSpec.plot_options found;
                         OptsSpec.style_options := OptsSpec.style_options found |} rest
      | None =>
      match try (OptsSpec.plot_options found) plot_options with
      | Some (l, rest) =>
          blocks fuel {| OptsSpec.pathspec := OptsSpec.pathspec found;
                         OptsSpec.norm_options := OptsSpec.norm_options found;
                         OptsSpec.plot_options := Some l;
                         OptsSpec.style_options := OptsSpec.style_options found |} rest
      | None =>
      match try (OptsSpec.style_options found) style_options with
      | Some (l, rest) =>
          blocks fuel {| OptsSpec.pathspec := OptsSpec.pathspec found;
                         OptsSpec.norm_options := OptsSpec.norm_options found;
                         OptsSpec.plot_options := OptsSpec.plot_options found;
                         OptsSpec.style_options := Some l |} rest
      | None => (found, s)
      end end end
  end.

Section OptsGrammar.

(** The values of [Compositor.definitions] when the class is created. *)
Variable definitions : list string.

Definition compositor_ops : parser string := MatchFirst (Literal <$> definitions).

Definition pathspec : parser string := MatchFirst [dotted_path; compositor_ops].

Definition spec_group : parser OptsSpec.spec_group := λ s,
  match pathspec s with
  | Some (path, rest) =>
      Some (blocks 3 {| OptsSpec.pathspec := path;
                        OptsSpec.norm_options := None;
                        OptsSpec.plot_options := None;
                        OptsSpec.style_options := None |} rest)
  | None => None
  end.

Definition opts_spec : ParserElement OptsSpec.spec_group :=
  element (OneOrMore spec_group).

End OptsGrammar.

Definition mode : parser string := Word (alphas +:+ nums +:+ "_").
Definition op : parser string := Word (alphas +:+ nums +:+ "_").
Definition overlay_spec : parser (list ptoken) :=
  nestedExpr "(" ")" (default_content "(" ")").
Definition value : parser string := Word (alphas +:+ nums +:+ "_").
Definition op_settings : parser (list ptoken) :=
  nestedExpr "[" "]" (default_content "[" "]").

(** [Group(mode + op + overlay_spec + value + Optional(op_settings))] *)
Definition comp_group : parser CompositorSpec.comp_group := λ s,
  match mode s with
  | Some (m, s1) =>
  match op s1 with
  | Some (o, s2) =>
  match overlay_spec s2 with
  | Some (sp, s3) =>
  match value s3 with
  | Some (v, s4) =>
  match Optional op_settings s4 with
  | Some (settings, s5) =>
      Some ({| CompositorSpec.mode := Some m; CompositorSpec.op := o;
               CompositorSpec.spec := sp; CompositorSpec.value := v;
               CompositorSpec.op_settings := settings |}, s5)
  | None => None
  end
  | None => None
  end
  | None => None
  end
  | None => None
  end
  | None => None
  end.

Definition compositor_spec : ParserElement CompositorSpec.comp_group :=
  element (OneOrMore comp_group).

End Grammar.

(** An evaluator for keyword lists of decimal integer literals:
    [dict(a=1, b=20)] gives the mapping, any other text raises. *)
Module Literals.

(** [s.split(sep)] for a one-character [sep]. *)
Fixpoint split (sep : ascii) (s : string) : list string :=
  match s with
  | EmptyString => [EmptyString]
  | String c rest =>
      if Ascii.eqb c sep then EmptyString :: split sep rest
      else match split sep rest with
           | w :: ws => String c w :: ws
           | [] => [String c EmptyString]
           end
  end.

Definition digit (c : ascii) : option Z :=
  let n := nat_of_ascii c in
  if (48 <=? n) && (n <=? 57) then Some (Z.of_nat (n - 48)) else None.

Fixpoint number (acc : Z) (s : string) : option Z :=
  match s with
  | EmptyString => Some acc
  | String c rest =>
      match digit c with
      | Some d => number (10 * acc + d)%Z rest
      | None => None
      end
  end.

Definition integer (s : string) : option Z :=
  match s with
  | EmptyString => None
  | String "0" (String _ _) => None
  | _ => number 0 s
  end.

Definition identifier (s : string) : bool :=
  match s with
  | EmptyString => false
  | String c rest =>
      Py.contains c (Pyparsing.alphas +:+ "_")
      && String.eqb (fst (Pyparsing.span
           (λ c, Py.contains c (Pyparsing.alphanums +:+ "_")) rest)) rest
  end.

Definition keyword (piece : string) : option (string * pyval) :=
  match split "=" piece with
  | [k; v] =>
      if identifier k then
        match integer v with
        | Some z => Some (k, PyInt z)
        | None => None
        end
      else None
  | _ => None
  end.

Fixpoint keywords (pieces : list string) (kwargs : gmap string pyval)
    : option (gmap string pyval) :=
  match pieces with
  | [] => Some kwargs
  | piece :: rest =>
      match keyword (Py.strip piece) with
      | Some (k, v) =>
          match kwargs !! k with
          | Some _ => None
          | None => keywords rest (<[k := v]> kwargs)
          end
      | None => None
      end
  end.

Definition eval (text : string) : option (gmap string pyval) :=
  match Pyparsing.after "dict(" text with
  | Some body =>
      if Py.endswith ")" body then
        let args := Py.init body in
        if String.eqb (Py.strip args) "" then Some ∅
        else keywords (split "," args) ∅
      else None
  | None => None
  end.

End Literals.

(** * Vocabulary of the properties *)

(** A string token as the grammar's [Word], [CharsNotIn] and
    [quotedString] elements produce it: not empty and without whitespace
    around it. *)
Definition pp_token (s : string) : Prop := s ≠ "" ∧ Py.strip s = s.

Definition pp_child (c : ptoken) : Prop :=
  match c with
  | PStr s => pp_token s
  | PList _ => True
  end.

(** The token begins, or ends, with the separator character. *)
Definition starts_with_sep (s : string) : bool :=
  match Py.first s with
  | Some c => Ascii.eqb c ","
  | None => false
  end.

Definition ends_with_sep (s : string) : bool :=
  match Py.last s with
  | Some c => Ascii.eqb c ","
  | None => false
  end.

Definition sep_if (b : bool) : string := if b then "," else "".

(** Strings joined with no separator. *)
Definition concat_strings (strs : list string) : string :=
  foldr String.append "" strs.

(** A child that is a string other than the bare separator: the children
    that [collect_tokens] emits as tokens of their own. *)
Definition emitted (c : ptoken) : Prop := ∃ s, c = PStr s ∧ s ≠ ",".

(** Every nested-list child is preceded by an emitted child. *)
Definition guarded (children : list ptoken) : Prop :=
  ∀ i items, children !! i = Some (PList items) →
    ∃ j c, j < i ∧ children !! j = Some c ∧ emitted c.

(** The first child that is not a bare separator is a nested list. *)
Definition nested_first (children : list ptoken) : Prop :=
  ∃ seps items rest,
    children = seps ++ PList items :: rest ∧ Forall (λ c, c = PStr ",") seps.

Fixpoint nested_firstb (children : list ptoken) : bool :=
  match children with
  | [] => false
  | PList _ :: _ => true
  | PStr s :: rest => String.eqb s "," && nested_firstb rest
  end.

(** A normalization token list that passes validation: no flag more than
    once, every token one of the four flags, no exclusive pair. *)
Definition valid_flags (opts : list ptoken) : bool :=
  forallb (λ flag, OptsSpec.count flag opts <=? 1) OptsSpec.options
  && forallb OptsSpec.in_options opts
  && forallb (λ pair : string * string,
                negb (OptsSpec.mem pair.1 opts && OptsSpec.mem pair.2 opts))
       OptsSpec.excluded.

(** A family ([mapwise] or [groupwise]) is specified when one of its two
    flags is present; its value is the sign of the flag, and true when the
    family is not specified. *)
Definition specified (family : string) (opts : list ptoken) : bool :=
  OptsSpec.mem ("+" +:+ family) opts || OptsSpec.mem ("-" +:+ family) opts.

Definition family_value (family : string) (opts : list ptoken) : bool :=
  if specified family opts then OptsSpec.mem ("+" +:+ family) opts else true.

(** A group that holds a normalization block only. *)
Definition norm_group (path : string) (opts : option (list ptoken))
    : OptsSpec.spec_group :=
  {| OptsSpec.pathspec := path; OptsSpec.norm_options := opts;
     OptsSpec.plot_options := None; OptsSpec.style_options := None |}.

(** The messages of the three validation errors. *)
Definition repeated_msg (flag : string) : string :=
  "Normalization specification must not contain repeated " +:+ Py.repr flag.

Definition unknown_msg : string :=
  "Normalization option not one of +mapwise, -mapwise, +groupwise, -groupwise".

Definition excluded_msg (a b : string) : string :=
  "Normalization specification cannot contain both " +:+ a +:+ " and " +:+ b.

(** The message of the evaluation error of [todict]. *)
Definition keyword_msg (keyword : string) : string :=
  "Could not evaluate keyword: " +:+ Py.repr keyword.

(** The text that [todict] evaluates for a fragment. *)
Definition dict_text (keyword : string) : string := "dict(" +:+ keyword +:+ ")".




(** A group that holds a style block only. *)
Definition style_group (path : string) (tokens : list ptoken)
    : OptsSpec.spec_group :=
  {| OptsSpec.pathspec := path; OptsSpec.norm_options := None;
     OptsSpec.plot_options := None; OptsSpec.style_options := Some tokens |}.

(** The definition that a group of a compositor line stands for: its
    mode word, which is [data] or [display]; the operation that the name
    table gives for its operation word; its overlay-spec tokens joined
    with single spaces; its value word; and the mapping of its settings
    block, empty when there is none. *)
Definition defines {operation : Type}
    (eval : string → option (gmap string pyval))
    (opmap : gmap string operation)
    (g : CompositorSpec.comp_group) (d : Compositor operation) : Prop :=
  CompositorSpec.mode g = Some (comp_mode d) ∧
  (comp_mode d = "data" ∨ comp_mode d = "display") ∧
  opmap !! CompositorSpec.op g = Some (comp_operation d) ∧
  (∃ words, CompositorSpec.spec g = PStr <$> words ∧
            comp_pattern d = Py.join " " words) ∧
  comp_value d = CompositorSpec.value g ∧
  match CompositorSpec.op_settings g with
  | Some settings =>
      Parser.todict eval (Some settings) "brackets" = Ok (comp_kwargs d)
  | None => comp_kwargs d = ∅
  end.

(** A group of a compositor line. *)
Definition compositor_group (mode op : string) (spec : list string)
    (value : string) (settings : option (list ptoken))
    : CompositorSpec.comp_group :=
  {| CompositorSpec.mode := Some mode; CompositorSpec.op := op;
     CompositorSpec.spec := PStr <$> spec; CompositorSpec.value := value;
     CompositorSpec.op_settings := settings |}.

(** What [kw[-1]] and [kw[0]] raise on the empty string. *)
Definition string_index_error : exn := IndexError "string index out of range".

(** A child for which [collect_tokens] adds a token: a string whose
    stripped text is not the separator. *)
Definition kept (c : ptoken) : bool :=
  match c with
  | PStr s => negb (String.eqb (Py.strip s) ",")
  | PList _ => false
  end.

(** A list of children that holds a nested list. *)
Definition holds_nested (items : list ptoken) : bool :=
  existsb (λ t, match t with PList _ => true | PStr _ => false end) items.

(** The grouping rule of [todict] read token by token: a token that
    holds [=] starts a fragment, any other token is appended onto the last
    fragment. *)
Definition attach (grouped : list string) (token : string)
    : result (list string) :=
  if Py.contains "=" token then Ok (grouped ++ [token])
  else let* prev := list_last grouped in
       Ok (set_last grouped (prev +:+ token)).

(** A text of whitespace only. *)
Fixpoint all_space (s : string) : bool :=
  match s with
  | EmptyString => true
  | String c rest => Py.is_space c && all_space rest
  end.

(** A group as [Image {} [a=1]] gives it: an empty normalization block
    and a plot block. *)
Definition empty_norm_group : OptsSpec.spec_group :=
  {| OptsSpec.pathspec := "Image"; OptsSpec.norm_options := Some [];
     OptsSpec.plot_options := Some [PStr "a=1"];
     OptsSpec.style_options := None |}.

(** The messages of [CompositorSpec.parse]: of the mode check, and of the
    test on the operation name that follows the lookup. *)
Definition mode_msg : string := "Either data or display mode must be specified.".

Definition operation_msg (op : string) : string :=
  "Operation " +:+ op +:+ " not available for use with compositors.".

(** What [xs[-1]] raises on the empty list. *)
Definition list_index_error : exn := IndexError "list index out of range".

(** * Properties *)

(** ** Loops and strings *)


Lemma for_each_app {A S} (body : S → A → result S) xs ys st :
  for_each body (xs ++ ys) st =
  let* st' := for_each body xs st in for_each body ys st'.
Proof.
  revert st. induction xs as [|x xs IH]; intros st; simpl; [done|].
  destruct (body st x) as [st'|e]; simpl; [apply IH | done].
Qed.

Lemma for_each_snoc {A S} (body : S → A → result S) xs x st :
  for_each body (xs ++ [x]) st =
  let* st' := for_each body xs st in body st' x.
Proof.
  rewrite for_each_app. destruct (for_each body xs st) as [st'|e]; simpl; [|done].
  by destruct (body st' x).
Qed.

Lemma append_cons (c : ascii) (s t : string) :
  String c s +:+ t = String c (s +:+ t).
Proof. reflexivity. Qed.

Lemma append_empty_r (s : string) : s +:+ "" = s.
Proof.
  induction s as [|c s IH]; [done|]. by rewrite append_cons, IH.
Qed.

Lemma last_init (s : string) :
  s ≠ "" → ∃ c, Py.last s = Some c ∧ s = Py.init s +:+ String c "".
Proof.
  induction s as [|c s IH]; [done|]. intros _.
  destruct s as [|c' s'].
  - exists c. done.
  - destruct IH as (d & Hl & Hs); [done|].
    exists d. split; [exact Hl|].
    change (Py.init (String c (String c' s')))
      with (String c (Py.init (String c' s'))).
    rewrite append_cons. by rewrite <- Hs.
Qed.

Lemma list_last_snoc {A} (xs : list A) (x : A) : list_last (xs ++ [x]) = Ok x.
Proof. unfold list_last. by rewrite last_snoc. Qed.

Lemma set_last_snoc {A} (xs : list A) (x v : A) :
  set_last (xs ++ [x]) v = xs ++ [v].
Proof.
  unfold set_last. rewrite length_app. simpl.
  replace (pred (length xs + 1)) with (length xs + 0) by lia.
  by rewrite insert_app_r.
Qed.

Lemma join_tokens_strings (sep : string) (strs : list string) :
  join_tokens sep (PStr <$> strs) = Ok (Py.join sep strs).
Proof.
  induction strs as [|s strs IH]; [done|].
  destruct strs as [|s' strs]; [done|].
  simpl in *. by rewrite IH.
Qed.

Lemma join_tokens_not_IndexError sep items msg :
  join_tokens sep items ≠ Err (IndexError msg).
Proof.
  induction items as [|[s|l] items IH]; simpl; try done.
  destruct items as [|t items]; [done|].
  destruct (join_tokens sep (t :: items)); simpl; [done | congruence].
Qed.

(** ** [_strip_commas] and [collect_tokens] *)

Lemma strip_commas_spec (s : string) :
  s ≠ "" → s ≠ "," →
  ∃ core, Parser._strip_commas s = Ok core ∧
          s = sep_if (starts_with_sep s) +:+ core +:+ sep_if (ends_with_sep s).
Proof.
  destruct s as [|c s]; [done|]. intros _ Hne.
  destruct (last_init (String c s)) as (d & Hl & Hs); [done|].
  unfold Parser._strip_commas, ends_with_sep, starts_with_sep.
  rewrite Hl. cbn [Parser.index_str bind Py.first].
  destruct (Ascii.eqb d ",") eqn:Ed.
  - apply Ascii.eqb_eq in Ed. subst d.
    destruct s as [|c' s'].
    { simpl in Hl. by injection Hl as ->. }
    change (Py.init (String c (String c' s')))
      with (String c (Py.init (String c' s'))) in *.
    cbn [Parser.index_str bind Py.first Py.tail].
    destruct (Ascii.eqb c ",") eqn:Ec.
    + apply Ascii.eqb_eq in Ec. subst c.
      eexists; split; [done|]. rewrite Hs at 1. reflexivity.
    + eexists; split; [done|]. rewrite Hs at 1. reflexivity.
  - cbn [Parser.index_str bind Py.first Py.tail].
    destruct (Ascii.eqb c ",") eqn:Ec.
    + apply Ascii.eqb_eq in Ec. subst c.
      eexists; split; [done|]. cbn [sep_if]. by rewrite append_empty_r.
    + eexists; split; [done|]. cbn [sep_if]. by rewrite append_empty_r.
Qed.

Lemma join_empty_sep (strs : list string) :
  Py.join "" strs = concat_strings strs.
Proof.
  induction strs as [|s strs IH]; [done|].
  destruct strs as [|s' strs].
  - cbn. by rewrite append_empty_r.
  - change (Py.join "" (s :: s' :: strs))
      with (s +:+ "" +:+ Py.join "" (s' :: strs)).
    rewrite IH. reflexivity.
Qed.

Lemma collect_tokens_snoc (mode : string) (children : list ptoken) (c : ptoken) :
  Parser.collect_tokens (Some (children ++ [c])) mode =
  let* tokens := Parser.collect_tokens (Some children) mode in
  Parser.collect_step mode tokens c.
Proof. apply for_each_snoc. Qed.

Lemma collect_step_nested (mode : string) (rest : list string) (prev : string)
    (strs : list string) :
  Parser.collect_step mode (rest ++ [prev]) (PList (PStr <$> strs)) =
  Ok (rest ++ [prev +:+ Parser.inner mode (concat_strings strs)]).
Proof.
  unfold Parser.collect_step.
  rewrite list_last_snoc, join_tokens_strings, join_empty_sep. cbn [bind].
  by rewrite set_last_snoc.
Qed.

Lemma collect_step_token (mode : string) (tokens : list string) (s : string) :
  pp_token s → s ≠ "," →
  ∃ core, s = sep_if (starts_with_sep s) +:+ core +:+ sep_if (ends_with_sep s) ∧
          Parser.collect_step mode tokens (PStr s) = Ok (tokens ++ [core]).
Proof.
  intros [Hne Htrim] Hsep.
  destruct (strip_commas_spec s Hne Hsep) as (core & Hcore & Hs).
  exists core. split; [exact Hs|].
  unfold Parser.collect_step. rewrite Htrim.
  destruct (String.eqb s ",") eqn:E.
  - apply String.eqb_eq in E. done.
  - by rewrite Hcore.
Qed.

(** C9. [collect_tokens] gives the empty sequence for [None].  Walking
    the children in order, with [tokens] collected so far: a nested list
    of strings is joined with no separator, wrapped in [(...)] in mode
    [parens] and in [[...]] in mode [brackets], and appended onto the last
    token collected, so that no token is added; a child that is the bare
    separator is dropped; any other token of the grammar loses one
    leading and one trailing separator where it has them, and no more
    (a doubled separator keeps one). *)
Theorem collect_tokens_walk :
  (∀ mode, Parser.collect_tokens None mode = Ok []) ∧
  (∀ mode children tokens,
     Parser.collect_tokens (Some children) mode = Ok tokens →
     (∀ rest prev strs, tokens = rest ++ [prev] →
        (mode = "parens" →
         Parser.collect_tokens (Some (children ++ [PList (PStr <$> strs)])) mode
         = Ok (rest ++ [prev +:+ "(" +:+ concat_strings strs +:+ ")"])) ∧
        (mode = "brackets" →
         Parser.collect_tokens (Some (children ++ [PList (PStr <$> strs)])) mode
         = Ok (rest ++ [prev +:+ "[" +:+ concat_strings strs +:+ "]"]))) ∧
     Parser.collect_tokens (Some (children ++ [PStr ","])) mode = Ok tokens ∧
     (∀ s, pp_token s → s ≠ "," →
        ∃ core,
          s = sep_if (starts_with_sep s) +:+ core +:+ sep_if (ends_with_sep s) ∧
          Parser.collect_tokens (Some (children ++ [PStr s])) mode
          = Ok (tokens ++ [core]))) ∧
  Parser.collect_tokens (Some [PStr ",,a,,"]) "parens" = Ok [",a,"].
Proof.
  split; [done|]. split; [|done].
  intros mode children tokens Hc. repeat split.
  - intros ->. rewrite collect_tokens_snoc, Hc. cbn [bind]. subst tokens.
    by rewrite collect_step_nested.
  - intros ->. rewrite collect_tokens_snoc, Hc. cbn [bind]. subst tokens.
    by rewrite collect_step_nested.
  - by rewrite collect_tokens_snoc, Hc.
  - intros s Hs Hsep.
    destruct (collect_step_token mode tokens s Hs Hsep) as (core & Heq & Hstep).
    exists core. split; [exact Heq|].
    by rewrite collect_tokens_snoc, Hc.
Qed.

Lemma collect_tokens_walk_witness :
  Parser.collect_tokens (Some [PStr "a=1,"; PStr ","; PStr "b=(1"]) "parens"
    = Ok ["a=1"; "b=(1"] ∧
  Parser.collect_tokens
    (Some ([PStr "a=1,"; PStr ","; PStr "b=(1"] ++ [PList (PStr <$> ["2,"; "3"])]))
    "parens" = Ok (["a=1"] ++ ["b=(1" +:+ "(" +:+ concat_strings ["2,"; "3"] +:+ ")"]) ∧
  ∃ core,
    ",c" = sep_if (starts_with_sep ",c") +:+ core +:+ sep_if (ends_with_sep ",c") ∧
    Parser.collect_tokens
      (Some ([PStr "a=1,"; PStr ","; PStr "b=(1"] ++ [PStr ",c"])) "parens"
    = Ok (["a=1"; "b=(1"] ++ [core]).
Proof.
  destruct collect_tokens_walk as (_ & Hwalk & _).
  destruct (Hwalk "parens" [PStr "a=1,"; PStr ","; PStr "b=(1"] ["a=1"; "b=(1"]
              eq_refl) as (Hnested & _ & Htoken).
  split; [reflexivity|]. split.
  - apply (Hnested ["a=1"] "b=(1" ["2,"; "3"] eq_refl). reflexivity.
  - apply (Htoken ",c").
    + split; [discriminate | reflexivity].
    + discriminate.
Defined.

(** ** The nested list that has no token before it *)

Lemma nested_firstb_spec (children : list ptoken) :
  nested_firstb children = true ↔ nested_first children.
Proof.
  split.
  - induction children as [|[s|items] children IH]; simpl; [done| |].
    + intros [Hs Hrest]%andb_true_iff. apply String.eqb_eq in Hs. subst s.
      destruct (IH Hrest) as (seps & items & rest & -> & Hseps).
      exists (PStr "," :: seps), items, rest. split; [done|].
      by constructor.
    + intros _. exists [], items, children. split; [done | constructor].
  - intros (seps & items & rest & -> & Hseps).
    induction Hseps as [|c seps -> _ IH]; [done|]. simpl. exact IH.
Qed.

Lemma guarded_iff (children : list ptoken) :
  guarded children ↔ nested_firstb children = false.
Proof.
  split.
  - intros Hg. destruct (nested_firstb children) eqn:E; [|done].
    apply nested_firstb_spec in E as (seps & items & rest & -> & Hseps).
    destruct (Hg (length seps) items) as (j & c & Hj & Hc & s & -> & Hs).
    { by rewrite list_lookup_middle. }
    rewrite lookup_app_l in Hc by done.
    rewrite Forall_forall in Hseps.
    apply list_elem_of_lookup_2, Hseps in Hc. congruence.
  - induction children as [|[s|items] children IH]; simpl; [| |done].
    + intros _ i items Hi. by rewrite lookup_nil in Hi.
    + intros E [|i] items Hi; [done|]. simpl in Hi.
      destruct (String.eqb s ",") eqn:Es; simpl in E.
      * destruct (IH E i items Hi) as (j & c & Hj & Hc & Hem).
        exists (S j), c. split; [lia | done].
      * exists 0, (PStr s). split; [lia|]. split; [done|].
        exists s. split; [done|]. by apply String.eqb_neq.
Qed.

Lemma collect_step_keeps_tokens (mode : string) (children : list ptoken)
    (tokens : list string) :
  Forall pp_child children → tokens ≠ [] →
  for_each (Parser.collect_step mode) children tokens ≠ Err list_index_error.
Proof.
  intros Hwf. revert tokens.
  induction Hwf as [|c children Hc _ IH]; intros tokens Hne; [done|].
  cbn [for_each]. destruct c as [s|items].
  - destruct Hc as [Hs Htrim]. unfold Parser.collect_step. rewrite Htrim.
    destruct (String.eqb s ",") eqn:Es; cbn [bind]; [by apply IH|].
    apply String.eqb_neq in Es.
    destruct (strip_commas_spec s Hs Es) as (core & -> & _). cbn [bind].
    apply IH. by intros [_ [=]]%app_nil.
  - unfold Parser.collect_step.
    destruct (list_last tokens) as [prev|e] eqn:El.
    + cbn [bind]. destruct (join_tokens "" items) as [text|e] eqn:Ej; cbn [bind].
      * apply IH. intros Hnil. apply Hne.
        apply (f_equal length) in Hnil. unfold set_last in Hnil.
        rewrite length_insert in Hnil. by destruct tokens.
      * intros [= ->]. by apply join_tokens_not_IndexError in Ej.
    + exfalso. unfold list_last in El. destruct (last tokens) eqn:E; [done|].
      by apply last_None in E.
Qed.

Lemma collect_tokens_index_error (mode : string) (children : list ptoken) :
  Forall pp_child children →
  Parser.collect_tokens (Some children) mode = Err list_index_error ↔
  nested_firstb children = true.
Proof.
  unfold Parser.collect_tokens.
  induction 1 as [|c children Hc Hwf IH]; [done|].
  cbn [for_each nested_firstb]. destruct c as [s|items]; [|done].
  destruct Hc as [Hs Htrim]. unfold Parser.collect_step. rewrite Htrim.
  destruct (String.eqb s ",") eqn:Es; cbn [bind andb]; [exact IH|].
  apply String.eqb_neq in Es.
  destruct (strip_commas_spec s Hs Es) as (core & -> & _). cbn [bind].
  split; [|done]. intros Herr. by apply collect_step_keeps_tokens in Herr.
Qed.

(** C10. On the parse results of the grammar, the step of
    [collect_tokens] that appends onto the previous token indexes an
    empty token list, and so raises [IndexError], whenever the first
    child that is not a bare separator is a nested list; that error is
    reached exactly when some nested-list child has no emitted child
    before it, it is not reached exactly when every nested-list child has
    one, and [collect_tokens] returns only when every nested-list child
    has one. *)
Theorem collect_tokens_total_only_if_guarded (mode : string)
    (children : list ptoken) :
  Forall pp_child children →
  (nested_first children →
   Parser.collect_tokens (Some children) mode = Err list_index_error) ∧
  (Parser.collect_tokens (Some children) mode = Err list_index_error ↔
   ¬ guarded children) ∧
  (guarded children ↔
   Parser.collect_tokens (Some children) mode ≠ Err list_index_error) ∧
  (is_Ok (Parser.collect_tokens (Some children) mode) → guarded children).
Proof.
  intros Hwf. pose proof (collect_tokens_index_error mode children Hwf) as Herr.
  repeat split.
  - intros Hn. by apply Herr, nested_firstb_spec.
  - intros He Hg. apply Herr in He. apply guarded_iff in Hg. congruence.
  - intros Hg. apply Herr. rewrite guarded_iff in Hg.
    by destruct (nested_firstb children).
  - intros Hg He. apply Herr in He. apply guarded_iff in Hg. congruence.
  - intros Hne. apply guarded_iff.
    destruct (nested_firstb children) eqn:E; [|done].
    destruct Herr as [_ Hr]. by destruct Hne; apply Hr.
  - intros [tokens Hok]. apply guarded_iff.
    destruct (nested_firstb children) eqn:E; [|done].
    destruct Herr as [_ Hr]. by rewrite Hr in Hok.
Qed.

Lemma collect_tokens_total_only_if_guarded_witness :
  Parser.collect_tokens (Some [PStr ","; PList [PStr "a=1"]; PStr "b=2"]) "parens"
    = Err list_index_error ∧
  ¬ guarded [PStr ","; PList [PStr "a=1"]; PStr "b=2"] ∧
  guarded [PStr "a=(1"; PList [PStr "2"]].
Proof.
  assert (Hwf : Forall pp_child [PStr ","; PList [PStr "a=1"]; PStr "b=2"]).
  { repeat constructor; discriminate. }
  assert (Hwf' : Forall pp_child [PStr "a=(1"; PList [PStr "2"]]).
  { repeat constructor; discriminate. }
  destruct (collect_tokens_total_only_if_guarded "parens" _ Hwf)
    as (Hfirst & Hiff & _ & _).
  destruct (collect_tokens_total_only_if_guarded "parens" _ Hwf')
    as (_ & _ & _ & Hok).
  split; [|split].
  - apply Hfirst. exists [PStr ","], [PStr "a=1"], [PStr "b=2"].
    split; [reflexivity | repeat constructor].
  - apply Hiff. reflexivity.
  - apply Hok. eexists. reflexivity.
Defined.

(** ** [process_normalization] *)

Section Normalization.
Import OptsSpec.

Lemma check_repeated_pass (opts : list ptoken) (flags : list string) :
  (∀ flag, flag ∈ flags → count flag opts ≤ 1) →
  for_each (check_repeated opts) flags () = Ok ().
Proof.
  induction flags as [|f flags IH]; intros Hall; [done|].
  cbn [for_each]. unfold check_repeated at 1.
  assert (Hf : count f opts ≤ 1) by (apply Hall; left).
  destruct (1 <? count f opts) eqn:E; [apply Nat.ltb_lt in E; lia|].
  cbn [bind]. apply IH. intros flag Hin. apply Hall. by right.
Qed.


Lemma check_excluded_pass (opts : list ptoken) (pairs : list (string * string)) :
  (∀ a b, (a, b) ∈ pairs → ¬ (mem a opts = true ∧ mem b opts = true)) →
  for_each (check_excluded opts) pairs () = Ok ().
Proof.
  induction pairs as [|[a b] pairs IH]; intros Hall; [done|].
  cbn [for_each]. unfold check_excluded at 1. cbn [fst snd].
  destruct (mem a opts && mem b opts) eqn:E.
  - apply andb_true_iff in E. exfalso. apply (Hall a b); [left | done].
  - cbn [bind]. apply IH. intros a' b' Hin. apply Hall. by right.
Qed.


(** The body of [process_normalization] on a block that is present and
    not empty. *)
Lemma process_normalization_nonempty (g : spec_group) (opts : list ptoken) :
  norm_options g = Some opts → opts ≠ [] →
  process_normalization g =
    let* _ := for_each (check_repeated opts) options () in
    if negb (forallb in_options opts) then Err (SyntaxError unknown_msg)
    else
    let* _ := for_each (check_excluded opts) excluded () in
    let* is_map := single_endswith "mapwise" opts in
    if is_map then Ok (Some (settings true (mem "+mapwise" opts)))
    else
    let* is_group := single_endswith "groupwise" opts in
    if is_group then Ok (Some (settings (mem "+groupwise" opts) true))
    else Ok (Some (settings (mem "+groupwise" opts) (mem "+mapwise" opts))).
Proof.
  intros Hg Hne. unfold process_normalization. rewrite Hg.
  destruct opts as [|t opts]; [done | reflexivity].
Qed.

End Normalization.



Lemma in_options_inv (token : ptoken) :
  OptsSpec.in_options token = true →
  token = PStr "+mapwise" ∨ token = PStr "-mapwise" ∨
  token = PStr "+groupwise" ∨ token = PStr "-groupwise".
Proof.
  destruct token as [s|items]; [|done].
  unfold OptsSpec.in_options, OptsSpec.options, OptsSpec.is_str. cbn [existsb].
  rewrite !orb_true_iff, !String.eqb_eq.
  intros [->|[->|[->|[->|[=]]]]]; auto.
Qed.

Lemma valid_flags_inv (opts : list ptoken) :
  valid_flags opts = true →
  forallb (λ flag, OptsSpec.count flag opts <=? 1) OptsSpec.options = true ∧
  forallb OptsSpec.in_options opts = true ∧
  forallb (λ pair : string * string,
             negb (OptsSpec.mem pair.1 opts && OptsSpec.mem pair.2 opts))
    OptsSpec.excluded = true.
Proof. unfold valid_flags. rewrite !andb_true_iff. tauto. Qed.

Lemma valid_flags_checks (opts : list ptoken) :
  valid_flags opts = true →
  for_each (OptsSpec.check_repeated opts) OptsSpec.options () = Ok () ∧
  for_each (OptsSpec.check_excluded opts) OptsSpec.excluded () = Ok ().
Proof.
  intros (Hcount & _ & Hpairs)%valid_flags_inv. split.
  - apply check_repeated_pass. intros flag Hin.
    rewrite forallb_forall in Hcount.
    apply list_elem_of_In, Hcount in Hin. by apply Nat.leb_le.
  - apply check_excluded_pass. intros a b Hin [Ha Hb].
    rewrite forallb_forall in Hpairs.
    apply list_elem_of_In, Hpairs in Hin. cbn [fst snd] in Hin.
    by rewrite Ha, Hb in Hin.
Qed.

(** A valid list with two tokens or more names both families. *)
Lemma valid_flags_both (t1 t2 : ptoken) (rest : list ptoken) :
  valid_flags (t1 :: t2 :: rest) = true →
  specified "mapwise" (t1 :: t2 :: rest) = true ∧
  specified "groupwise" (t1 :: t2 :: rest) = true.
Proof.
  intros (Hcount & Hall & Hpairs)%valid_flags_inv.
  cbn [forallb] in Hall. apply andb_true_iff in Hall as [H1 Hall].
  apply andb_true_iff in Hall as [H2 _].
  apply in_options_inv in H1. apply in_options_inv in H2.
  unfold specified, OptsSpec.mem, OptsSpec.count in *.
  destruct H1 as [->|[->|[->| ->]]], H2 as [->|[->|[->| ->]]];
    cbn in Hcount, Hpairs |- *;
    rewrite ?andb_true_r, ?andb_false_r, ?orb_true_r in *;
    try done;
    repeat match goal with
    | H : _ && _ = true |- _ => apply andb_true_iff in H; destruct H
    end; done.
Qed.

Lemma process_normalization_valid (g : OptsSpec.spec_group) (opts : list ptoken) :
  OptsSpec.norm_options g = Some opts → opts ≠ [] → valid_flags opts = true →
  OptsSpec.process_normalization g
  = Ok (Some (OptsSpec.settings (family_value "groupwise" opts)
                                (family_value "mapwise" opts))).
Proof.
  intros Hg Hne Hvalid.
  rewrite (process_normalization_nonempty g opts Hg Hne).
  destruct (valid_flags_checks opts Hvalid) as [-> ->].
  pose proof (valid_flags_inv opts Hvalid) as (_ & Hall & _).
  rewrite Hall. cbn [bind negb].
  destruct opts as [|t1 [|t2 rest]]; [done| |].
  - cbn [forallb] in Hall. apply andb_true_iff in Hall as [H1 _].
    apply in_options_inv in H1.
    destruct H1 as [->|[->|[->| ->]]]; reflexivity.
  - destruct (valid_flags_both t1 t2 rest Hvalid) as [Hm Hg'].
    unfold family_value. rewrite Hm, Hg'.
    cbn [forallb] in Hall. apply andb_true_iff in Hall as [H1 _].
    apply in_options_inv in H1.
    by destruct H1 as [->|[->|[->| ->]]].
Qed.



(** ** [todict] *)

Lemma groupby_head {A} (key : A → bool) (x : A) (xs : list A) :
  ∃ run runs, groupby key (x :: xs) = (key x, x :: run) :: runs.
Proof.
  cbn [groupby]. destruct (groupby key xs) as [|[k run] runs]; [by eexists _, _|].
  destruct (Bool.eqb (key x) k) eqn:E; [|by eexists _, _].
  apply Bool.eqb_prop in E. subst k. by eexists _, _.
Qed.

Lemma group_tokens_leading_run (t : string) (ts : list string) :
  Py.contains "=" t = false →
  Parser.group_tokens (t :: ts) = Err list_index_error.
Proof.
  intros Ht. unfold Parser.group_tokens.
  destruct (groupby_head (Py.contains "=") t ts) as (run & runs & ->).
  rewrite Ht. reflexivity.
Qed.

Section TodictFacts.
Variable eval : string → option (gmap string pyval).




End TodictFacts.

(** C4 as stated does not hold: a token sequence that begins with a token
    without [=] makes [todict] raise [IndexError], which is not a syntax
    error. *)
Lemma todict_leading_run_not_syntax_error :
  ¬ (∀ eval parseresult mode t ts,
       Parser.collect_tokens parseresult mode = Ok (t :: ts) →
       Py.contains "=" t = false →
       is_SyntaxError (Parser.todict eval parseresult mode)).
Proof.
  intros Hclaim.
  destruct (Hclaim Literals.eval (Some [PStr "a"; PStr "b=1"]) "parens"
              "a" ["b=1"] eq_refl eq_refl) as [msg Hmsg].
  vm_compute in Hmsg. discriminate Hmsg.
Qed.

(** C4, amended.  For every token sequence that begins with a run of
    tokens without [=], [todict] fails: merging the run onto the last
    fragment indexes the empty fragment list and raises [IndexError].  No
    fragment is evaluated and no mapping is returned, so the tokens are
    not silently dropped. *)
Theorem todict_leading_run_fails
    (eval : string → option (gmap string pyval))
    (parseresult : option (list ptoken)) (mode : string)
    (t : string) (ts : list string) :
  Parser.collect_tokens parseresult mode = Ok (t :: ts) →
  Py.contains "=" t = false →
  Parser.todict eval parseresult mode = Err list_index_error.
Proof.
  intros Hc Ht. unfold Parser.todict. rewrite Hc. cbn [bind].
  by rewrite group_tokens_leading_run.
Qed.

Lemma todict_leading_run_fails_witness :
  Parser.todict Literals.eval (Some [PStr "a"; PStr "b=1"]) "parens"
  = Err list_index_error.
Proof.
  apply (todict_leading_run_fails Literals.eval (Some [PStr "a"; PStr "b=1"])
           "parens" "a" ["b=1"]); reflexivity.
Defined.



(** ** The whole-line check *)

Lemma check_line_Ok {G} (grammar : ParserElement G) (line : string) :
  check_line grammar line = Ok () ↔
  ∃ k s e, scanString grammar line = [(k, s, e)] ∧
           Py.strip (Py.take e line) = Py.strip line.
Proof.
  unfold check_line. split.
  - destruct (scanString grammar line) as [|[[k s] e] [|m ms]]; try done.
    destruct (String.eqb _ _) eqn:E; [|done].
    apply String.eqb_eq in E. intros _. by exists k, s, e.
  - intros (k & s & e & -> & Heq). rewrite Heq, String.eqb_refl. done.
Qed.



Section ParseFacts.
Variable eval : string → option (gmap string pyval).
Variable opts_spec : ParserElement OptsSpec.spec_group.
Variable compositor_spec : ParserElement CompositorSpec.comp_group.
Variable operation : Type.
Variable name : operation → string.
Variable operations : list operation.

Lemma opts_parse_Ok (line : string) (result : gmap string (gmap string Options)) :
  OptsSpec.parse eval opts_spec line = Ok result ↔
  check_line opts_spec line = Ok () ∧
  ∃ groups, parseString opts_spec line = Ok groups ∧
            for_each (OptsSpec.parse_step eval) groups ∅ = Ok result.
Proof.
  unfold OptsSpec.parse. split.
  - destruct (check_line opts_spec line) as [[]|]; [|done]. cbn [bind].
    destruct (parseString opts_spec line) as [groups|]; [|done]. cbn [bind].
    intros Hloop. split; [done|]. by exists groups.
  - intros (-> & groups & -> & Hloop). exact Hloop.
Qed.

Lemma compositor_parse_Ok (line : string)
    (definitions : list (Compositor operation)) :
  CompositorSpec.parse eval compositor_spec operation name operations line
  = Ok definitions ↔
  check_line compositor_spec line = Ok () ∧
  ∃ groups, parseString compositor_spec line = Ok groups ∧
    for_each (CompositorSpec.parse_step eval operation
                (CompositorSpec.opmap operation name operations)) groups []
    = Ok definitions.
Proof.
  unfold CompositorSpec.parse. split.
  - destruct (check_line compositor_spec line) as [[]|]; [|done]. cbn [bind].
    destruct (parseString compositor_spec line) as [groups|]; [|done]. cbn [bind].
    intros Hloop. split; [done|]. by exists groups.
  - intros (-> & groups & -> & Hloop). exact Hloop.
Qed.

End ParseFacts.

Lemma opts_loop_groups (eval : string → option (gmap string pyval))
    (groups : list OptsSpec.spec_group) (acc result : gmap string (gmap string Options)) :
  for_each (OptsSpec.parse_step eval) groups acc = Ok result →
  Forall (λ g, is_Ok (OptsSpec.group_options eval g)) groups.
Proof.
  revert acc. induction groups as [|g groups IH]; intros acc; [constructor|].
  cbn [for_each]. unfold OptsSpec.parse_step at 1.
  destruct (OptsSpec.group_options eval g) as [o|] eqn:Hg; [|done]. cbn [bind].
  intros Hrest. constructor; [by exists o | by eapply IH].
Qed.




(** ** [OptsSpec.parse]: the last group of a path wins *)

Lemma opts_loop_other (eval : string → option (gmap string pyval))
    (groups : list OptsSpec.spec_group) (path : string)
    (acc result : gmap string (gmap string Options)) :
  Forall (λ g, OptsSpec.pathspec g ≠ path) groups →
  for_each (OptsSpec.parse_step eval) groups acc = Ok result →
  result !! path = acc !! path.
Proof.
  intros Hother. revert acc.
  induction Hother as [|g groups Hg _ IH]; intros acc; cbn [for_each].
  - by intros [= <-].
  - unfold OptsSpec.parse_step at 1.
    destruct (OptsSpec.group_options eval g) as [o|]; [|done]. cbn [bind].
    intros Hrest%IH. by rewrite Hrest, lookup_insert_ne.
Qed.

Lemma opts_loop_last (eval : string → option (gmap string pyval))
    (before after : list OptsSpec.spec_group) (g : OptsSpec.spec_group)
    (acc result : gmap string (gmap string Options)) :
  Forall (λ g', OptsSpec.pathspec g' ≠ OptsSpec.pathspec g) after →
  for_each (OptsSpec.parse_step eval) (before ++ g :: after) acc = Ok result →
  ∃ options, OptsSpec.group_options eval g = Ok options ∧
             result !! OptsSpec.pathspec g = Some options.
Proof.
  intros Hafter. rewrite for_each_app.
  destruct (for_each (OptsSpec.parse_step eval) before acc) as [mid|]; [|done].
  cbn [bind for_each]. unfold OptsSpec.parse_step at 1.
  destruct (OptsSpec.group_options eval g) as [o|]; [|done]. cbn [bind].
  intros Hrest. exists o. split; [done|].
  rewrite (opts_loop_other _ _ _ _ _ Hafter Hrest). apply lookup_insert_eq.
Qed.

Lemma todict_one (eval : string → option (gmap string pyval))
    (parseresult : option (list ptoken)) (mode keyword : string)
    (d : gmap string pyval) :
  Parser.collect_tokens parseresult mode = Ok [keyword] →
  Py.contains "=" keyword = true →
  eval (dict_text keyword) = Some d →
  Parser.todict eval parseresult mode = Ok d.
Proof.
  intros Hc Hk Hd. unfold Parser.todict. rewrite Hc. cbn [bind].
  unfold Parser.group_tokens. cbn [groupby for_each]. rewrite Hk.
  cbn [Parser.group_step bind app for_each].
  unfold Parser.eval_step. fold (dict_text keyword). rewrite Hd.
  by rewrite (right_id_L ∅ (∪)).
Qed.

Lemma style_group_options (eval : string → option (gmap string pyval))
    (path : string) (tokens : list ptoken) :
  OptsSpec.group_options eval (style_group path tokens) =
  let* kw := Parser.todict eval (Some tokens) "parens" in
  Ok (<["style" := mkOptions kw]> ∅).
Proof. reflexivity. Qed.

(** C5.  When [OptsSpec.parse] returns, the entry of a path is the
    options record of the last group of the line that the path heads:
    with the same path heading an earlier group, that group leaves no
    trace in the entry.  On [Image (a=1) Image (a=2)], which the grammar
    matches whole as two [Image] groups with style tokens [a=1] and
    [a=2], the result maps [Image] to the style options [{a: 2}] only. *)
Theorem parse_last_group_wins
    (eval : string → option (gmap string pyval))
    (opts_spec : ParserElement OptsSpec.spec_group) :
  (∀ line result groups before earlier between last after,
     OptsSpec.parse eval opts_spec line = Ok result →
     parseString opts_spec line = Ok groups →
     groups = before ++ earlier :: between ++ last :: after →
     OptsSpec.pathspec earlier = OptsSpec.pathspec last →
     Forall (λ g, OptsSpec.pathspec g ≠ OptsSpec.pathspec last) after →
     ∃ options, OptsSpec.group_options eval last = Ok options ∧
                result !! OptsSpec.pathspec last = Some options) ∧
  (∀ k,
     scanString opts_spec "Image (a=1) Image (a=2)" = [(k, 0, 23)] →
     parseString opts_spec "Image (a=1) Image (a=2)"
     = Ok [style_group "Image" [PStr "a=1"]; style_group "Image" [PStr "a=2"]] →
     eval "dict(a=1)" = Some {[ "a" := PyInt 1 ]} →
     eval "dict(a=2)" = Some {[ "a" := PyInt 2 ]} →
     OptsSpec.parse eval opts_spec "Image (a=1) Image (a=2)"
     = Ok {[ "Image" := {[ "style" := mkOptions {[ "a" := PyInt 2 ]} ]} ]}).
Proof.
  split.
  - intros line result groups before earlier between last after
      (_ & groups' & Hparse & Hloop)%opts_parse_Ok Hgroups -> _ Hafter.
    rewrite Hgroups in Hparse. injection Hparse as <-.
    apply (opts_loop_last eval (before ++ earlier :: between) after last ∅);
      [done|].
    by rewrite <- app_assoc.
  - intros k Hscan Hparse H1 H2.
    apply opts_parse_Ok. split.
    { apply check_line_Ok. by exists k, 0, 23. }
    eexists. split; [exact Hparse|].
    cbn [for_each]. unfold OptsSpec.parse_step.
    rewrite !style_group_options.
    rewrite (todict_one eval (Some [PStr "a=1"]) "parens" "a=1" _
               eq_refl eq_refl H1).
    rewrite (todict_one eval (Some [PStr "a=2"]) "parens" "a=2" _
               eq_refl eq_refl H2).
    cbn [bind style_group OptsSpec.pathspec].
    by rewrite insert_insert_eq, !insert_empty.
Qed.

Lemma parse_last_group_wins_witness :
  (∃ options,
     OptsSpec.group_options Literals.eval (style_group "Image" [PStr "a=2"])
     = Ok options ∧
     ({[ "Image" := {[ "style" := mkOptions {[ "a" := PyInt 2 ]} ]} ]}
        : gmap string (gmap string Options))
       !! OptsSpec.pathspec (style_group "Image" [PStr "a=2"]) = Some options) ∧
  OptsSpec.parse Literals.eval (Grammar.opts_spec []) "Image (a=1) Image (a=2)"
  = Ok {[ "Image" := {[ "style" := mkOptions {[ "a" := PyInt 2 ]} ]} ]}.
Proof.
  destruct (parse_last_group_wins Literals.eval (Grammar.opts_spec []))
    as [Hlast Hexample].
  assert (Hparse : OptsSpec.parse Literals.eval (Grammar.opts_spec [])
                     "Image (a=1) Image (a=2)"
                   = Ok {[ "Image" := {[ "style" := mkOptions {[ "a" := PyInt 2 ]} ]} ]}).
  { eapply Hexample; vm_compute; reflexivity. }
  split; [|exact Hparse].
  apply (Hlast "Image (a=1) Image (a=2)" _
           [style_group "Image" [PStr "a=1"]; style_group "Image" [PStr "a=2"]]
           [] (style_group "Image" [PStr "a=1"]) []
           (style_group "Image" [PStr "a=2"]) []).
  - exact Hparse.
  - vm_compute. reflexivity.
  - reflexivity.
  - reflexivity.
  - constructor.
Defined.

(** ** [CompositorSpec.parse] *)

Lemma join_tokens_cons (sep s : string) (t : ptoken) (items : list ptoken) :
  join_tokens sep (PStr s :: t :: items) =
  let* r := join_tokens sep (t :: items) in Ok (s +:+ sep +:+ r).
Proof. reflexivity. Qed.

Lemma join_tokens_Ok_inv (sep : string) (items : list ptoken) (text : string) :
  join_tokens sep items = Ok text →
  ∃ words, items = PStr <$> words ∧ text = Py.join sep words.
Proof.
  revert text. induction items as [|[s|l] items IH]; intros text; [| |done].
  - intros [= <-]. by exists [].
  - destruct items as [|t items].
    + intros [= <-]. by exists [s].
    + rewrite join_tokens_cons.
      destruct (join_tokens sep (t :: items)) as [r|] eqn:Hr; [|done].
      destruct (IH r eq_refl) as (words & Hw & ->).
      cbn [bind]. intros [= <-].
      exists (s :: words). split; [by rewrite Hw|].
      destruct words as [|w words]; [done | reflexivity].
Qed.

Section CompositorFacts.
Variable eval : string → option (gmap string pyval).
Variable operation : Type.
Variable opmap : gmap string operation.

Lemma group_definition_Ok (g : CompositorSpec.comp_group)
    (d : Compositor operation) :
  CompositorSpec.group_definition eval operation opmap g = Ok d ↔
  defines eval opmap g d.
Proof.
  unfold CompositorSpec.group_definition, defines, CompositorSpec.getitem.
  split.
  - destruct (CompositorSpec.mode g) as [m|]; [|done].
    destruct (String.eqb m "data" || String.eqb m "display") eqn:Hm; [|done].
    cbn [negb].
    destruct (opmap !! CompositorSpec.op g) as [o|]; [|done]. cbn [bind].
    destruct (join_tokens " " (CompositorSpec.spec g)) as [text|] eqn:Hj; [|done].
    cbn [bind]. rewrite bool_decide_eq_true_2 by done. cbn [negb].
    apply join_tokens_Ok_inv in Hj as (words & Hw & ->).
    apply orb_true_iff in Hm. rewrite !String.eqb_eq in Hm.
    destruct (CompositorSpec.op_settings g) as [settings|].
    + destruct (Parser.todict eval (Some settings) "brackets") as [kw|]; [|done].
      cbn [bind]. intros [= <-]. cbn. eauto 10.
    + cbn [bind]. intros [= <-]. cbn. eauto 10.
  - destruct d as [pattern o v m kw]. cbn.
    intros (-> & Hm & -> & (words & -> & ->) & -> & Hkw).
    assert (String.eqb m "data" || String.eqb m "display" = true) as ->.
    { apply orb_true_iff. rewrite !String.eqb_eq. done. }
    cbn [negb bind]. rewrite join_tokens_strings. cbn [bind].
    rewrite bool_decide_eq_true_2 by done. cbn [negb].
    destruct (CompositorSpec.op_settings g) as [settings|].
    + by rewrite Hkw.
    + by rewrite Hkw.
Qed.

Lemma compositor_loop_Ok (groups : list CompositorSpec.comp_group)
    (acc definitions : list (Compositor operation)) :
  for_each (CompositorSpec.parse_step eval operation opmap) groups acc
  = Ok definitions ↔
  ∃ new, Forall2 (defines eval opmap) groups new ∧ definitions = acc ++ new.
Proof.
  revert acc. induction groups as [|g groups IH]; intros acc; cbn [for_each].
  - split.
    + intros [= <-]. exists []. split; [constructor | by rewrite app_nil_r].
    + intros (new & Hnew & ->). apply Forall2_nil_inv_l in Hnew as ->.
      by rewrite app_nil_r.
  - unfold CompositorSpec.parse_step at 1. split.
    + destruct (CompositorSpec.group_definition eval operation opmap g)
        as [d|] eqn:Hd; [|done].
      cbn [bind]. intros (new & Hnew & ->)%IH.
      exists (d :: new). split; [|by rewrite <- app_assoc].
      constructor; [by apply group_definition_Ok | done].
    + intros (new & Hnew & ->).
      apply Forall2_cons_inv_l in Hnew as (d & new' & Hd & Hnew' & ->).
      apply group_definition_Ok in Hd. rewrite Hd. cbn [bind].
      apply IH. exists new'. split; [done | by rewrite <- app_assoc].
Qed.

End CompositorFacts.

(** C8.  [CompositorSpec.parse] returns a list of definitions exactly
    when the line passes the whole-line check, the grammar gives its
    groups, and the list holds, in the order of the groups, one
    definition per group: the mode word of the group, the operation the
    name table gives for its operation word, its overlay-spec tokens
    joined with single spaces, its value word, and the mapping of its
    settings block as keyword arguments (none without a block).  On
    [data add (A * B) C [kwarg=1]], matched whole as one group, with
    [add] registered, the result is the one definition with mode [data],
    operation [add], overlay spec [A * B], value [C] and settings
    [{kwarg: 1}]. *)
Theorem compositor_parse_definitions
    (eval : string → option (gmap string pyval))
    (compositor_spec : ParserElement CompositorSpec.comp_group)
    (operation : Type) (name : operation → string)
    (operations : list operation) :
  (∀ line definitions,
     CompositorSpec.parse eval compositor_spec operation name operations line
     = Ok definitions ↔
     (∃ k s e, scanString compositor_spec line = [(k, s, e)] ∧
               Py.strip (Py.take e line) = Py.strip line) ∧
     ∃ groups,
       parseString compositor_spec line = Ok groups ∧
       Forall2 (defines eval (CompositorSpec.opmap operation name operations))
         groups definitions) ∧
  (∀ k add,
     scanString compositor_spec "data add (A * B) C [kwarg=1]" = [(k, 0, 28)] →
     parseString compositor_spec "data add (A * B) C [kwarg=1]"
     = Ok [compositor_group "data" "add" ["A"; "*"; "B"] "C"
             (Some [PStr "kwarg=1"])] →
     CompositorSpec.opmap operation name operations !! "add" = Some add →
     eval "dict(kwarg=1)" = Some {[ "kwarg" := PyInt 1 ]} →
     CompositorSpec.parse eval compositor_spec operation name operations
       "data add (A * B) C [kwarg=1]"
     = Ok [mkCompositor "A * B" add "C" "data" {[ "kwarg" := PyInt 1 ]}]).
Proof.
  assert (Hiff : ∀ line definitions,
     CompositorSpec.parse eval compositor_spec operation name operations line
     = Ok definitions ↔
     (∃ k s e, scanString compositor_spec line = [(k, s, e)] ∧
               Py.strip (Py.take e line) = Py.strip line) ∧
     ∃ groups,
       parseString compositor_spec line = Ok groups ∧
       Forall2 (defines eval (CompositorSpec.opmap operation name operations))
         groups definitions).
  { intros line definitions.
    rewrite compositor_parse_Ok, check_line_Ok.
    split; intros (Hcheck & groups & Hparse & Hloop); (split; [done|]);
      exists groups; (split; [done|]).
    - by apply compositor_loop_Ok in Hloop as (new & Hnew & ->).
    - apply compositor_loop_Ok. by exists definitions. }
  split; [exact Hiff|].
  intros k add Hscan Hparse Hadd Heval. apply Hiff. split.
  { by exists k, 0, 28. }
  eexists. split; [exact Hparse|].
  constructor; [|constructor].
  unfold defines. cbn.
  split; [done|]. split; [by left|]. split; [done|].
  split; [by exists ["A"; "*"; "B"]|]. split; [done|].
  by apply (todict_one eval (Some [PStr "kwarg=1"]) "brackets" "kwarg=1").
Qed.

Lemma compositor_parse_definitions_witness :
  CompositorSpec.parse Literals.eval Grammar.compositor_spec () (λ _, "add") [()]
    "data add (A * B) C [kwarg=1]"
  = Ok [mkCompositor "A * B" () "C" "data" {[ "kwarg" := PyInt 1 ]}].
Proof.
  destruct (compositor_parse_definitions Literals.eval Grammar.compositor_spec
              () (λ _, "add") [()]) as [_ Hexample].
  eapply Hexample; vm_compute; reflexivity.
Defined.

(** Where C3 fails.  With the line checked and its groups given, a group
    whose mode is [data] or [display] and whose operation word is not a
    key of the name table, all groups before it having their definitions,
    makes [CompositorSpec.parse] raise [KeyError] for that word: the
    table is indexed before the test that would raise the syntax error. *)
Theorem compositor_unknown_operation
    (eval : string → option (gmap string pyval))
    (compositor_spec : ParserElement CompositorSpec.comp_group)
    (operation : Type) (name : operation → string)
    (operations : list operation) (line : string)
    (before after : list CompositorSpec.comp_group)
    (g : CompositorSpec.comp_group) (mode : string)
    (definitions : list (Compositor operation)) :
  check_line compositor_spec line = Ok () →
  parseString compositor_spec line = Ok (before ++ g :: after) →
  Forall2 (defines eval (CompositorSpec.opmap operation name operations))
    before definitions →
  CompositorSpec.mode g = Some mode →
  mode = "data" ∨ mode = "display" →
  CompositorSpec.opmap operation name operations !! CompositorSpec.op g = None →
  CompositorSpec.parse eval compositor_spec operation name operations line
  = Err (KeyError (CompositorSpec.op g)) ∧
  ¬ is_SyntaxError
      (CompositorSpec.parse eval compositor_spec operation name operations line).
Proof.
  intros Hcheck Hparse Hbefore Hmode Hm Hop.
  assert (Herr : CompositorSpec.parse eval compositor_spec operation name
                   operations line = Err (KeyError (CompositorSpec.op g))).
  { unfold CompositorSpec.parse. rewrite Hcheck, Hparse. cbn [bind].
    rewrite for_each_app.
    assert (for_each (CompositorSpec.parse_step eval operation
                        (CompositorSpec.opmap operation name operations))
              before [] = Ok definitions) as ->.
    { apply compositor_loop_Ok. by exists definitions. }
    cbn [bind for_each]. unfold CompositorSpec.parse_step at 1.
    unfold CompositorSpec.group_definition, CompositorSpec.getitem.
    rewrite Hmode, Hop.
    assert (String.eqb mode "data" || String.eqb mode "display" = true) as ->.
    { apply orb_true_iff. rewrite !String.eqb_eq. done. }
    reflexivity. }
  split; [exact Herr|]. rewrite Herr. by intros [msg [=]].
Qed.

Lemma compositor_unknown_operation_witness :
  CompositorSpec.parse Literals.eval Grammar.compositor_spec () (λ _, "add") [()]
    "data unknownop (A * B) C"
  = Err (KeyError "unknownop") ∧
  ¬ is_SyntaxError
      (CompositorSpec.parse Literals.eval Grammar.compositor_spec ()
         (λ _, "add") [()] "data unknownop (A * B) C").
Proof.
  apply (compositor_unknown_operation Literals.eval Grammar.compositor_spec
           () (λ _, "add") [()] "data unknownop (A * B) C" []
           [] (compositor_group "data" "unknownop" ["A"; "*"; "B"] "C" None)
           "data" []).
  - vm_compute. reflexivity.
  - vm_compute. reflexivity.
  - constructor.
  - reflexivity.
  - left. reflexivity.
  - vm_compute. reflexivity.
Defined.

(** * Further properties *)

(** ** [_strip_commas] and [collect_tokens], outside the claims *)

Lemma length_append (a b : string) :
  String.length (a +:+ b) = String.length a + String.length b.
Proof.
  induction a as [|c a IH]; [done|]. rewrite append_cons. simpl. by rewrite IH.
Qed.

(** X1.  [_strip_commas] raises, with the [IndexError] of indexing an
    empty string, exactly on the empty string and on the string that is
    the separator alone; on every other string it returns, and what it
    returns is at most two characters shorter. *)
Theorem strip_commas_domain (kw : string) :
  (kw = "" ∨ kw = "," → Parser._strip_commas kw = Err string_index_error) ∧
  (kw ≠ "" → kw ≠ "," →
   ∃ core, Parser._strip_commas kw = Ok core ∧
           String.length kw ≤ String.length core + 2) ∧
  (∀ e, Parser._strip_commas kw = Err e → kw = "" ∨ kw = ",").
Proof.
  split; [|split].
  - by intros [-> | ->].
  - intros Hne Hsep.
    destruct (strip_commas_spec kw Hne Hsep) as (core & Hcore & Hkw).
    exists core. split; [done|].
    rewrite Hkw at 1. rewrite !length_append.
    destruct (starts_with_sep kw), (ends_with_sep kw); simpl; lia.
  - intros e He.
    destruct (decide (kw = "")) as [|Hne]; [by left|].
    destruct (decide (kw = ",")) as [|Hsep]; [by right|].
    destruct (strip_commas_spec kw Hne Hsep) as (core & Hcore & _). congruence.
Qed.

Lemma strip_commas_domain_witness :
  Parser._strip_commas "," = Err string_index_error ∧
  ∃ core, Parser._strip_commas ",a=1," = Ok core ∧
          String.length ",a=1," ≤ String.length core + 2.
Proof.
  destruct (strip_commas_domain ",") as (Hfail & _).
  destruct (strip_commas_domain ",a=1,") as (_ & Hok & _).
  split.
  - apply Hfail. right. reflexivity.
  - apply Hok; discriminate.
Defined.

Lemma collect_loop_length (mode : string) (children : list ptoken)
    (tokens out : list string) :
  for_each (Parser.collect_step mode) children tokens = Ok out →
  length out = length tokens + length (List.filter kept children).
Proof.
  revert tokens. induction children as [|c children IH]; intros tokens.
  - intros [= <-]. simpl. lia.
  - cbn [for_each List.filter]. destruct c as [s|items]; cbn [kept].
    + unfold Parser.collect_step.
      destruct (String.eqb (Py.strip s) ",") eqn:Es; cbn [negb bind].
      * apply IH.
      * destruct (Parser._strip_commas s) as [kw|]; [|done]. cbn [bind].
        intros Hrest%IH. rewrite Hrest, length_app. simpl. lia.
    + unfold Parser.collect_step.
      destruct (list_last tokens) as [prev|]; [|done]. cbn [bind].
      destruct (join_tokens "" items) as [text|]; [|done]. cbn [bind].
      intros Hrest%IH. rewrite Hrest. unfold set_last.
      by rewrite length_insert.
Qed.

(** X2.  When [collect_tokens] returns, it has one token for each string
    child whose stripped text is not the separator, and no other: nested
    lists and separators never add a token. *)
Theorem collect_tokens_count (mode : string) (children : list ptoken)
    (tokens : list string) :
  Parser.collect_tokens (Some children) mode = Ok tokens →
  length tokens = length (List.filter kept children) ∧
  length tokens ≤ length children.
Proof.
  intros Hc%collect_loop_length. split; [exact Hc|].
  rewrite Hc. simpl. apply List.filter_length_le.
Qed.

Lemma collect_tokens_count_witness :
  length ["a=(1(2,3)"; "b=4"]
  = length (List.filter kept
      [PStr "a=(1"; PList [PStr "2,"; PStr "3"]; PStr ","; PStr "b=4"]) ∧
  length ["a=(1(2,3)"; "b=4"]
  ≤ length [PStr "a=(1"; PList [PStr "2,"; PStr "3"]; PStr ","; PStr "b=4"].
Proof.
  apply (collect_tokens_count "parens"
           [PStr "a=(1"; PList [PStr "2,"; PStr "3"]; PStr ","; PStr "b=4"]
           ["a=(1(2,3)"; "b=4"]).
  reflexivity.
Defined.

Lemma join_tokens_nested (sep : string) (items : list ptoken) :
  holds_nested items = true → join_tokens sep items = Err TypeError.
Proof.
  unfold holds_nested.
  induction items as [|[s|l] items IH]; cbn [existsb orb]; [done| |done].
  intros Hn. destruct items as [|t items]; [done|].
  by rewrite join_tokens_cons, IH.
Qed.

(** X3.  A nested list that itself holds a nested list cannot be joined:
    when the walk reaches it with a token to append onto, [collect_tokens]
    raises [TypeError], whatever follows. *)
Theorem collect_tokens_nested_twice (mode : string)
    (before after items : list ptoken) (tokens : list string) :
  Parser.collect_tokens (Some before) mode = Ok tokens →
  tokens ≠ [] →
  holds_nested items = true →
  Parser.collect_tokens (Some (before ++ PList items :: after)) mode
  = Err TypeError.
Proof.
  unfold Parser.collect_tokens. intros Hc Hne Hn.
  rewrite for_each_app, Hc. cbn [bind for_each]. unfold Parser.collect_step at 1.
  destruct tokens as [|t tokens _] using rev_ind; [done|].
  by rewrite list_last_snoc, join_tokens_nested.
Qed.

Lemma collect_tokens_nested_twice_witness :
  Parser.collect_tokens
    (Some ([PStr "a="] ++ PList [PList [PStr "1,2"]; PStr ",3"] :: [PStr "b=4"]))
    "parens"
  = Err TypeError.
Proof.
  apply (collect_tokens_nested_twice "parens" [PStr "a="] [PStr "b=4"]
           [PList [PStr "1,2"]; PStr ",3"] ["a="]).
  - reflexivity.
  - discriminate.
  - reflexivity.
Defined.

Lemma for_each_ext {A S} (f g : S → A → result S) (items : list A) (st : S) :
  (∀ s x, f s x = g s x) → for_each f items st = for_each g items st.
Proof.
  intros Hfg. revert st. induction items as [|x items IH]; intros st; [done|].
  cbn [for_each]. rewrite Hfg. destruct (g st x); [apply IH | done].
Qed.

(** X4.  Only the mode [parens] wraps nested lists in parentheses: under
    any other mode string [collect_tokens] and [todict] behave as under
    [brackets]. *)
Theorem mode_defaults_to_brackets
    (eval : string → option (gmap string pyval))
    (parseresult : option (list ptoken)) (mode : string) :
  mode ≠ "parens" →
  Parser.collect_tokens parseresult mode
  = Parser.collect_tokens parseresult "brackets" ∧
  Parser.todict eval parseresult mode
  = Parser.todict eval parseresult "brackets".
Proof.
  intros Hmode.
  assert (Hc : Parser.collect_tokens parseresult mode
               = Parser.collect_tokens parseresult "brackets").
  { destruct parseresult as [children|]; [|done]. apply for_each_ext.
    intros tokens [s|items]; [done|]. unfold Parser.collect_step, Parser.inner.
    apply String.eqb_neq in Hmode. by rewrite Hmode. }
  split; [exact Hc|]. unfold Parser.todict. by rewrite Hc.
Qed.

Lemma mode_defaults_to_brackets_witness :
  Parser.collect_tokens (Some [PStr "a="; PList [PStr "1,2"]]) "braces"
  = Parser.collect_tokens (Some [PStr "a="; PList [PStr "1,2"]]) "brackets" ∧
  Parser.todict Literals.eval (Some [PStr "a="; PList [PStr "1,2"]]) "braces"
  = Parser.todict Literals.eval (Some [PStr "a="; PList [PStr "1,2"]]) "brackets".
Proof.
  apply (mode_defaults_to_brackets Literals.eval
           (Some [PStr "a="; PList [PStr "1,2"]]) "braces").
  discriminate.
Defined.

(** ** The grouping step of [todict] *)

Lemma append_assoc (a b c : string) : (a +:+ b) +:+ c = a +:+ b +:+ c.
Proof.
  induction a as [|x a IH]; [done|]. by rewrite !append_cons, IH.
Qed.

Lemma groupby_nil {A} (key : A → bool) (items : list A) :
  groupby key items = [] → items = [].
Proof.
  destruct items as [|x items]; [done|].
  destruct (groupby_head key x items) as (run & runs & ->). done.
Qed.

Lemma group_step_single (grouped : list string) (x : string) :
  Parser.group_step grouped (Py.contains "=" x, [x]) = attach grouped x.
Proof.
  unfold Parser.group_step, attach. by destruct (Py.contains "=" x).
Qed.

Lemma group_step_cons (grouped : list string) (x : string) (run : list string) :
  Parser.group_step grouped (Py.contains "=" x, x :: run) =
  let* grouped' := attach grouped x in
  Parser.group_step grouped' (Py.contains "=" x, run).
Proof.
  unfold Parser.group_step, attach. destruct (Py.contains "=" x); cbn [bind].
  - by rewrite <- app_assoc.
  - destruct grouped as [|prev grouped _] using rev_ind; [done|].
    rewrite list_last_snoc. cbn [bind].
    rewrite !set_last_snoc, list_last_snoc. cbn [bind]. rewrite set_last_snoc.
    do 2 f_equal. rewrite !join_empty_sep. cbn [concat_strings foldr].
    by rewrite append_assoc.
Qed.

(** Grouping by runs is grouping token by token. *)
Lemma group_loop_by_token (tokens grouped : list string) :
  for_each Parser.group_step (groupby (Py.contains "=") tokens) grouped
  = for_each attach tokens grouped.
Proof.
  revert grouped. induction tokens as [|x tokens IH]; intros grouped; [done|].
  cbn [groupby for_each].
  destruct (groupby (Py.contains "=") tokens) as [|[k run] runs] eqn:Hg.
  - apply groupby_nil in Hg. subst tokens. cbn [for_each].
    rewrite group_step_single. by destruct (attach grouped x).
  - destruct (Bool.eqb (Py.contains "=" x) k) eqn:Hk.
    + apply Bool.eqb_prop in Hk. subst k. cbn [for_each].
      rewrite group_step_cons.
      destruct (attach grouped x) as [grouped'|]; [|done]. cbn [bind].
      rewrite <- IH. reflexivity.
    + cbn [for_each]. rewrite group_step_single.
      destruct (attach grouped x) as [grouped'|]; [|done]. cbn [bind].
      rewrite <- IH. reflexivity.
Qed.

Lemma group_tokens_by_token (tokens : list string) :
  Parser.group_tokens tokens = for_each attach tokens [].
Proof. apply group_loop_by_token. Qed.

Lemma attach_nonempty (grouped : list string) (token : string) :
  grouped ≠ [] → ∃ grouped', attach grouped token = Ok grouped' ∧ grouped' ≠ [].
Proof.
  intros Hne. unfold attach. destruct (Py.contains "=" token).
  - eexists. split; [done|]. by intros [_ [=]]%app_nil.
  - destruct grouped as [|prev grouped _] using rev_ind; [done|].
    rewrite list_last_snoc. cbn [bind]. rewrite set_last_snoc.
    eexists. split; [done|]. by intros [_ [=]]%app_nil.
Qed.

Lemma attach_loop_total (tokens grouped : list string) :
  grouped ≠ [] → is_Ok (for_each attach tokens grouped).
Proof.
  revert grouped. induction tokens as [|t tokens IH]; intros grouped Hne.
  - by eexists.
  - cbn [for_each].
    destruct (attach_nonempty grouped t Hne) as (grouped' & -> & Hne').
    cbn [bind]. by apply IH.
Qed.

(** X5.  The grouping step of [todict] returns exactly when the token
    list is empty or its first token holds [=]; tokens without [=] later
    in the list never make it fail. *)
Theorem group_tokens_total_iff (tokens : list string) :
  is_Ok (Parser.group_tokens tokens) ↔
  match tokens with
  | [] => True
  | t :: _ => Py.contains "=" t = true
  end.
Proof.
  rewrite group_tokens_by_token. destruct tokens as [|t tokens].
  - split; [done|]. intros _. by eexists.
  - cbn [for_each]. unfold attach at 1.
    destruct (Py.contains "=" t) eqn:Ht.
    + split; [done|]. intros _. cbn [bind app]. by apply attach_loop_total.
    + split; [|done]. by intros [grouped [=]].
Qed.

Lemma group_tokens_total_iff_witness :
  is_Ok (Parser.group_tokens ["a=(1"; "2,"; "3)"; "b=4"; "5"]).
Proof.
  apply (group_tokens_total_iff ["a=(1"; "2,"; "3)"; "b=4"; "5"]).
  reflexivity.
Defined.

Lemma concat_strings_app (a b : list string) :
  concat_strings (a ++ b) = concat_strings a +:+ concat_strings b.
Proof.
  induction a as [|x a IH]; [done|].
  cbn [app concat_strings foldr]. fold (concat_strings (a ++ b)).
  fold (concat_strings a). by rewrite IH, append_assoc.
Qed.

Lemma concat_strings_single (x : string) : concat_strings [x] = x.
Proof. cbn. apply append_empty_r. Qed.

Lemma contains_append (c : ascii) (a b : string) :
  Py.contains c (a +:+ b) = Py.contains c a || Py.contains c b.
Proof.
  induction a as [|x a IH]; [done|].
  rewrite append_cons. cbn [Py.contains]. by rewrite IH, orb_assoc.
Qed.

Lemma attach_loop_inv (tokens grouped out : list string) :
  for_each attach tokens grouped = Ok out →
  Forall (λ f, Py.contains "=" f = true) grouped →
  concat_strings out = concat_strings grouped +:+ concat_strings tokens ∧
  length out = length grouped + length (List.filter (Py.contains "=") tokens) ∧
  Forall (λ f, Py.contains "=" f = true) out.
Proof.
  revert grouped. induction tokens as [|t tokens IH]; intros grouped.
  - intros [= <-] Hall. cbn. rewrite append_empty_r. split; [done|].
    split; [lia | done].
  - cbn [for_each List.filter]. unfold attach at 1.
    destruct (Py.contains "=" t) eqn:Ht.
    + cbn [bind]. intros Hrest Hall.
      destruct (IH _ Hrest) as (Hc & Hl & Hf).
      { apply Forall_app. split; [done|]. by constructor. }
      split; [|split; [|done]].
      * rewrite Hc, concat_strings_app, concat_strings_single.
        cbn [concat_strings foldr]. by rewrite append_assoc.
      * rewrite Hl, length_app. simpl. lia.
    + destruct grouped as [|prev grouped _] using rev_ind; [done|].
      rewrite list_last_snoc. cbn [bind]. rewrite set_last_snoc.
      intros Hrest Hall. apply Forall_app in Hall as [Hall Hprev].
      apply Forall_inv in Hprev.
      destruct (IH _ Hrest) as (Hc & Hl & Hf).
      { apply Forall_app. split; [done|]. constructor; [|done].
        cbn beta in Hprev |- *. by rewrite contains_append, Hprev. }
      split; [|split; [|done]].
      * rewrite Hc, !concat_strings_app, !concat_strings_single.
        cbn [concat_strings foldr]. by rewrite !append_assoc.
      * rewrite Hl, !length_app. simpl. lia.
Qed.

(** X6.  When the grouping step of [todict] returns, the fragments hold
    the text of the tokens, nothing lost and nothing added: joined end to
    end they give the tokens joined end to end.  There is one fragment
    per token that holds [=], and every fragment holds [=]. *)
Theorem group_tokens_keeps_text (tokens grouped : list string) :
  Parser.group_tokens tokens = Ok grouped →
  concat_strings grouped = concat_strings tokens ∧
  length grouped = length (List.filter (Py.contains "=") tokens) ∧
  Forall (λ f, Py.contains "=" f = true) grouped.
Proof.
  rewrite group_tokens_by_token. intros Hloop.
  by destruct (attach_loop_inv tokens [] grouped Hloop (List.Forall_nil _)).
Qed.

Lemma group_tokens_keeps_text_witness :
  concat_strings ["a=(12,3)"; "b=45"]
  = concat_strings ["a=(1"; "2,"; "3)"; "b=4"; "5"] ∧
  length ["a=(12,3)"; "b=45"]
  = length (List.filter (Py.contains "=") ["a=(1"; "2,"; "3)"; "b=4"; "5"]) ∧
  Forall (λ f, Py.contains "=" f = true) ["a=(12,3)"; "b=45"].
Proof.
  apply (group_tokens_keeps_text ["a=(1"; "2,"; "3)"; "b=4"; "5"]
           ["a=(12,3)"; "b=45"]).
  reflexivity.
Defined.

(** ** The mapping of [todict] *)

Section TodictKeys.
Variable eval : string → option (gmap string pyval).

Lemma eval_loop_untouched (after : list string) (k : string)
    (acc out : gmap string pyval) :
  Forall (λ kw, ∀ d, eval (dict_text kw) = Some d → d !! k = None) after →
  for_each (Parser.eval_step eval) after acc = Ok out →
  out !! k = acc !! k.
Proof.
  intros Hafter. revert acc.
  induction Hafter as [|kw after Hkw _ IH]; intros acc; cbn [for_each].
  - by intros [= <-].
  - unfold Parser.eval_step at 1. fold (dict_text kw).
    destruct (eval (dict_text kw)) as [d|] eqn:Hd; [|done]. cbn [bind].
    intros Hrest%IH. rewrite Hrest. apply lookup_union_r. by apply Hkw.
Qed.

Lemma eval_loop_origin (grouped : list string) (k : string) (v : pyval)
    (acc out : gmap string pyval) :
  for_each (Parser.eval_step eval) grouped acc = Ok out →
  out !! k = Some v →
  acc !! k = Some v ∨
  ∃ kw d, kw ∈ grouped ∧ eval (dict_text kw) = Some d ∧ d !! k = Some v.
Proof.
  revert acc. induction grouped as [|kw grouped IH]; intros acc; cbn [for_each].
  - intros [= <-] Hk. by left.
  - unfold Parser.eval_step at 1. fold (dict_text kw).
    destruct (eval (dict_text kw)) as [d|] eqn:Hd; [|done]. cbn [bind].
    intros Hrest Hk. destruct (IH _ Hrest Hk) as [Hacc|(kw' & d' & Hin & He & Hv)].
    + apply lookup_union_Some_raw in Hacc as [Hdk|[_ Hacc]]; [|by left].
      right. exists kw, d. split; [left | done].
    + right. exists kw', d'. split; [by right | done].
Qed.

(** X7.  In the mapping that [todict] returns, a key has the value of the
    last fragment that defines it: a fragment that gives the key a value,
    with no later fragment defining the key, decides it.  And the mapping
    holds no key that no fragment defines. *)
Theorem todict_later_fragment_wins
    (parseresult : option (list ptoken)) (mode : string)
    (tokens grouped : list string) (kwargs : gmap string pyval) (k : string) :
  Parser.collect_tokens parseresult mode = Ok tokens →
  Parser.group_tokens tokens = Ok grouped →
  Parser.todict eval parseresult mode = Ok kwargs →
  (∀ before keyword after d v,
     grouped = before ++ keyword :: after →
     eval (dict_text keyword) = Some d → d !! k = Some v →
     Forall (λ kw, ∀ d', eval (dict_text kw) = Some d' → d' !! k = None) after →
     kwargs !! k = Some v) ∧
  (∀ v, kwargs !! k = Some v →
     ∃ keyword d, keyword ∈ grouped ∧ eval (dict_text keyword) = Some d ∧
                  d !! k = Some v).
Proof.
  intros Hc Hg. unfold Parser.todict. rewrite Hc. cbn [bind]. rewrite Hg.
  cbn [bind]. intros Hloop. split.
  - intros before keyword after d v -> Hd Hv Hafter.
    rewrite for_each_app in Hloop.
    destruct (for_each (Parser.eval_step eval) before ∅) as [mid|]; [|done].
    cbn [bind for_each] in Hloop. unfold Parser.eval_step at 1 in Hloop.
    fold (dict_text keyword) in Hloop. rewrite Hd in Hloop. cbn [bind] in Hloop.
    rewrite (eval_loop_untouched _ _ _ _ Hafter Hloop).
    by apply lookup_union_Some_l.
  - intros v Hv.
    destruct (eval_loop_origin _ _ _ _ _ Hloop Hv) as [Hempty|Hfrag]; [|done].
    by rewrite lookup_empty in Hempty.
Qed.

End TodictKeys.

Lemma todict_later_fragment_wins_witness :
  ({[ "a" := PyInt 3; "b" := PyInt 2 ]} : gmap string pyval) !! "a"
  = Some (PyInt 3).
Proof.
  destruct (todict_later_fragment_wins Literals.eval
              (Some [PStr "a=1,"; PStr "b=2"; PStr "a=3"]) "parens"
              ["a=1"; "b=2"; "a=3"] ["a=1"; "b=2"; "a=3"]
              {[ "a" := PyInt 3; "b" := PyInt 2 ]} "a"
              eq_refl eq_refl) as [Hlast _].
  { vm_compute. reflexivity. }
  apply (Hlast ["a=1"; "b=2"] "a=3" [] {[ "a" := PyInt 3 ]} (PyInt 3)).
  - reflexivity.
  - vm_compute. reflexivity.
  - vm_compute. reflexivity.
  - constructor.
Defined.

(** ** [process_normalization], outside the claims *)

Lemma check_repeated_Ok_inv (opts : list ptoken) (flags : list string) :
  for_each (OptsSpec.check_repeated opts) flags () = Ok () →
  forallb (λ flag, OptsSpec.count flag opts <=? 1) flags = true.
Proof.
  induction flags as [|f flags IH]; [done|].
  cbn [for_each forallb]. unfold OptsSpec.check_repeated at 1.
  destruct (1 <? OptsSpec.count f opts) eqn:E; [done|]. cbn [bind].
  intros Hrest%IH. rewrite Hrest, andb_true_r.
  apply Nat.leb_le. apply Nat.ltb_ge in E. lia.
Qed.

Lemma check_repeated_Err_inv (opts : list ptoken) (flags : list string) e :
  for_each (OptsSpec.check_repeated opts) flags () = Err e →
  ∃ flag, flag ∈ flags ∧ e = SyntaxError (repeated_msg flag).
Proof.
  induction flags as [|f flags IH]; [done|].
  cbn [for_each]. unfold OptsSpec.check_repeated at 1.
  destruct (1 <? OptsSpec.count f opts).
  - intros [= <-]. exists f. split; [left | done].
  - cbn [bind]. intros (flag & Hin & ->)%IH. exists flag. split; [by right | done].
Qed.

Lemma check_excluded_Ok_inv (opts : list ptoken) (pairs : list (string * string)) :
  for_each (OptsSpec.check_excluded opts) pairs () = Ok () →
  forallb (λ pair : string * string,
             negb (OptsSpec.mem pair.1 opts && OptsSpec.mem pair.2 opts))
    pairs = true.
Proof.
  induction pairs as [|p pairs IH]; [done|].
  cbn [for_each forallb]. unfold OptsSpec.check_excluded at 1.
  destruct (OptsSpec.mem p.1 opts && OptsSpec.mem p.2 opts); [done|].
  cbn [bind negb andb]. apply IH.
Qed.

Lemma check_excluded_Err_inv (opts : list ptoken)
    (pairs : list (string * string)) e :
  for_each (OptsSpec.check_excluded opts) pairs () = Err e →
  ∃ a b, (a, b) ∈ pairs ∧ e = SyntaxError (excluded_msg a b).
Proof.
  induction pairs as [|[a b] pairs IH]; [done|].
  cbn [for_each]. unfold OptsSpec.check_excluded at 1. cbn [fst snd].
  destruct (OptsSpec.mem a opts && OptsSpec.mem b opts).
  - intros [= <-]. exists a, b. split; [left | done].
  - cbn [bind]. intros (a' & b' & Hin & ->)%IH.
    exists a', b'. split; [by right | done].
Qed.

Lemma single_endswith_Ok (suffix : string) (opts : list ptoken) :
  forallb OptsSpec.in_options opts = true →
  ∃ b, OptsSpec.single_endswith suffix opts = Ok b.
Proof.
  intros Hall. unfold OptsSpec.single_endswith.
  destruct (length opts =? 1) eqn:El; [|by eexists].
  destruct opts as [|[s|items] opts]; [done| by eexists |].
  cbn [forallb] in Hall. by apply andb_true_iff in Hall as [Hin _].
Qed.

(** What [process_normalization] does on a block that is present and not
    empty, by outcome. *)
Lemma process_normalization_outcome (g : OptsSpec.spec_group)
    (opts : list ptoken) :
  OptsSpec.norm_options g = Some opts → opts ≠ [] →
  (valid_flags opts = true ∧
   OptsSpec.process_normalization g
   = Ok (Some (OptsSpec.settings (family_value "groupwise" opts)
                                 (family_value "mapwise" opts)))) ∨
  (valid_flags opts = false ∧
   ∃ msg, OptsSpec.process_normalization g = Err (SyntaxError msg) ∧
     ((∃ flag, flag ∈ OptsSpec.options ∧ msg = repeated_msg flag) ∨
      msg = unknown_msg ∨
      (∃ a b, (a, b) ∈ OptsSpec.excluded ∧ msg = excluded_msg a b))).
Proof.
  intros Hg Hne. destruct (valid_flags opts) eqn:Hvalid.
  { left. split; [done|]. by apply process_normalization_valid. }
  right. split; [done|].
  rewrite (process_normalization_nonempty g opts Hg Hne).
  unfold valid_flags in Hvalid.
  destruct (for_each (OptsSpec.check_repeated opts) OptsSpec.options ())
    as [[]|e] eqn:Hrep.
  2:{ apply check_repeated_Err_inv in Hrep as (flag & Hin & ->).
      eexists. split; [done|]. left. by exists flag. }
  apply check_repeated_Ok_inv in Hrep. rewrite Hrep in Hvalid. cbn [bind].
  destruct (forallb OptsSpec.in_options opts) eqn:Hall; cbn [negb].
  2:{ eexists. split; [done|]. right. by left. }
  destruct (for_each (OptsSpec.check_excluded opts) OptsSpec.excluded ())
    as [[]|e] eqn:Hex.
  2:{ apply check_excluded_Err_inv in Hex as (a & b & Hin & ->).
      eexists. split; [done|]. right. right. by exists a, b. }
  apply check_excluded_Ok_inv in Hex. by rewrite Hex in Hvalid.
Qed.



(** X9.  Every exception that [process_normalization] raises is a syntax
    error, with the message of a repeated flag, of an unknown option or of
    an exclusive pair; no other exception leaves it. *)
Theorem process_normalization_raises (g : OptsSpec.spec_group) (e : exn) :
  OptsSpec.process_normalization g = Err e →
  ∃ msg, e = SyntaxError msg ∧
    ((∃ flag, flag ∈ OptsSpec.options ∧ msg = repeated_msg flag) ∨
     msg = unknown_msg ∨
     (∃ a b, (a, b) ∈ OptsSpec.excluded ∧ msg = excluded_msg a b)).
Proof.
  destruct (OptsSpec.norm_options g) as [opts|] eqn:Hg.
  2:{ unfold OptsSpec.process_normalization. by rewrite Hg. }
  destruct (decide (opts = [])) as [->|Hne].
  { unfold OptsSpec.process_normalization. by rewrite Hg. }
  destruct (process_normalization_outcome g opts Hg Hne)
    as [[_ ->]|[_ (msg & -> & Hmsg)]]; [done|].
  intros [= <-]. by exists msg.
Qed.

Lemma process_normalization_raises_witness :
  ∃ msg, SyntaxError unknown_msg = SyntaxError msg ∧
    ((∃ flag, flag ∈ OptsSpec.options ∧ msg = repeated_msg flag) ∨
     msg = unknown_msg ∨
     (∃ a b, (a, b) ∈ OptsSpec.excluded ∧ msg = excluded_msg a b)).
Proof.
  apply (process_normalization_raises
           (norm_group "Image" (Some [PList [PStr "+mapwise"]]))).
  reflexivity.
Defined.

Lemma valid_flags_short (opts : list ptoken) :
  valid_flags opts = true → length opts ≤ 2.
Proof.
  destruct opts as [|t1 [|t2 [|t3 rest]]]; simpl; try lia.
  intros (Hcount & Hall & Hpairs)%valid_flags_inv. exfalso.
  cbn [forallb] in Hall. apply andb_true_iff in Hall as [H1 Hall].
  apply andb_true_iff in Hall as [H2 Hall].
  apply andb_true_iff in Hall as [H3 _].
  apply in_options_inv in H1. apply in_options_inv in H2.
  apply in_options_inv in H3.
  unfold OptsSpec.mem, OptsSpec.count in *.
  destruct H1 as [->|[->|[->| ->]]], H2 as [->|[->|[->| ->]]],
    H3 as [->|[->|[->| ->]]];
    cbn in Hcount, Hpairs;
    rewrite ?andb_true_r, ?andb_false_r, ?orb_true_r in *;
    done.
Qed.

(** X10.  [process_normalization] returns settings only for a block of
    one or two tokens: with the four flags, no repeat and no exclusive
    pair, at most one flag of each family is left. *)
Theorem process_normalization_short (g : OptsSpec.spec_group)
    (opts : list ptoken) (s : gmap string pyval) :
  OptsSpec.norm_options g = Some opts →
  OptsSpec.process_normalization g = Ok (Some s) →
  1 ≤ length opts ≤ 2.
Proof.
  intros Hg Hs.
  destruct (decide (opts = [])) as [->|Hne].
  { unfold OptsSpec.process_normalization in Hs. by rewrite Hg in Hs. }
  split; [destruct opts; [done | simpl; lia]|].
  destruct (process_normalization_outcome g opts Hg Hne)
    as [[Hvalid _]|[_ (msg & Hmsg & _)]]; [|congruence].
  by apply valid_flags_short.
Qed.

Lemma process_normalization_short_witness :
  1 ≤ length [PStr "+groupwise"; PStr "-mapwise"] ≤ 2.
Proof.
  apply (process_normalization_short
           (norm_group "Image" (Some [PStr "+groupwise"; PStr "-mapwise"]))
           [PStr "+groupwise"; PStr "-mapwise"]
           (OptsSpec.settings true false)); reflexivity.
Defined.

Lemma count_permutation (flag : string) (opts opts' : list ptoken) :
  opts ≡ₚ opts' → OptsSpec.count flag opts = OptsSpec.count flag opts'.
Proof.
  unfold OptsSpec.count.
  induction 1 as [|t l l' _ IH|t t' l|l l' l'' _ IH1 _ IH2]; cbn [List.filter].
  - done.
  - destruct (OptsSpec.is_str flag t); simpl; by rewrite IH.
  - by destruct (OptsSpec.is_str flag t), (OptsSpec.is_str flag t').
  - by rewrite IH1.
Qed.

Lemma mem_permutation (flag : string) (opts opts' : list ptoken) :
  opts ≡ₚ opts' → OptsSpec.mem flag opts = OptsSpec.mem flag opts'.
Proof.
  unfold OptsSpec.mem.
  induction 1 as [|t l l' _ IH|t t' l|l l' l'' _ IH1 _ IH2]; cbn [existsb].
  - done.
  - by rewrite IH.
  - by destruct (OptsSpec.is_str flag t), (OptsSpec.is_str flag t').
  - by rewrite IH1.
Qed.

Lemma in_options_permutation (opts opts' : list ptoken) :
  opts ≡ₚ opts' →
  forallb OptsSpec.in_options opts = forallb OptsSpec.in_options opts'.
Proof.
  induction 1 as [|t l l' _ IH|t t' l|l l' l'' _ IH1 _ IH2]; cbn [forallb].
  - done.
  - by rewrite IH.
  - by destruct (OptsSpec.in_options t), (OptsSpec.in_options t').
  - by rewrite IH1.
Qed.

Lemma single_endswith_permutation (suffix : string) (opts opts' : list ptoken) :
  opts ≡ₚ opts' →
  OptsSpec.single_endswith suffix opts = OptsSpec.single_endswith suffix opts'.
Proof.
  intros Hp. unfold OptsSpec.single_endswith.
  rewrite <- (Permutation_length Hp).
  destruct (length opts =? 1) eqn:El; [|done].
  apply Nat.eqb_eq in El.
  destruct opts as [|t [|t2 opts]]; [done| |done].
  apply Permutation_singleton_l in Hp. by subst opts'.
Qed.

(** X11.  The outcome of [process_normalization], value or error, does
    not depend on the order of the tokens of the block. *)
Theorem process_normalization_order (g g' : OptsSpec.spec_group)
    (opts opts' : list ptoken) :
  OptsSpec.norm_options g = Some opts →
  OptsSpec.norm_options g' = Some opts' →
  opts ≡ₚ opts' →
  OptsSpec.process_normalization g = OptsSpec.process_normalization g'.
Proof.
  intros Hg Hg' Hp.
  destruct (decide (opts = [])) as [->|Hne].
  { apply Permutation_nil_l in Hp. subst opts'.
    unfold OptsSpec.process_normalization. by rewrite Hg, Hg'. }
  assert (Hne' : opts' ≠ []).
  { intros ->. by apply Permutation_nil_r in Hp. }
  rewrite (process_normalization_nonempty g opts Hg Hne).
  rewrite (process_normalization_nonempty g' opts' Hg' Hne').
  rewrite (for_each_ext (OptsSpec.check_repeated opts)
             (OptsSpec.check_repeated opts')).
  2:{ intros [] flag. unfold OptsSpec.check_repeated.
      by rewrite (count_permutation flag opts opts'). }
  rewrite (for_each_ext (OptsSpec.check_excluded opts)
             (OptsSpec.check_excluded opts')).
  2:{ intros [] [a b]. unfold OptsSpec.check_excluded. cbn [fst snd].
      by rewrite (mem_permutation a opts opts'), (mem_permutation b opts opts'). }
  rewrite (in_options_permutation opts opts' Hp).
  rewrite !(single_endswith_permutation _ opts opts' Hp).
  by rewrite !(mem_permutation _ opts opts' Hp).
Qed.

Lemma process_normalization_order_witness :
  OptsSpec.process_normalization
    (norm_group "Image" (Some [PStr "-mapwise"; PStr "+groupwise"]))
  = OptsSpec.process_normalization
      (norm_group "Curve" (Some [PStr "+groupwise"; PStr "-mapwise"])).
Proof.
  apply (process_normalization_order _ _
           [PStr "-mapwise"; PStr "+groupwise"]
           [PStr "+groupwise"; PStr "-mapwise"]).
  - reflexivity.
  - reflexivity.
  - apply perm_swap.
Defined.

(** ** The whole-line check, by the text after the match *)

Lemma take_drop (e : nat) (line : string) :
  Py.take e line +:+ Py.drop e line = line.
Proof.
  revert line. induction e as [|e IH]; intros [|c line]; try done.
  cbn [Py.take Py.drop]. by rewrite append_cons, IH.
Qed.

Lemma lstrip_empty_iff (s : string) : Py.lstrip s = "" ↔ all_space s = true.
Proof.
  induction s as [|c s IH]; [done|]. cbn [Py.lstrip all_space].
  destruct (Py.is_space c); cbn [andb]; [exact IH | done].
Qed.

Lemma rstrip_empty_iff (s : string) : Py.rstrip s = "" ↔ all_space s = true.
Proof.
  induction s as [|c s IH]; [done|]. cbn [Py.rstrip all_space].
  destruct (Py.rstrip s) as [|d r].
  - destruct IH as [IH _]. rewrite (IH eq_refl), andb_true_r.
    by destruct (Py.is_space c).
  - split; [done|]. intros [_ Hs]%andb_true_iff. by apply IH in Hs.
Qed.

Lemma all_space_lstrip (s : string) : all_space (Py.lstrip s) = all_space s.
Proof.
  induction s as [|c s IH]; [done|]. cbn [Py.lstrip].
  destruct (Py.is_space c) eqn:Hc; cbn [all_space]; by rewrite ?Hc.
Qed.

Lemma lstrip_append (a b : string) :
  Py.lstrip (a +:+ b) = if all_space a then Py.lstrip b else Py.lstrip a +:+ b.
Proof.
  induction a as [|c a IH]; [done|].
  rewrite append_cons. cbn [Py.lstrip all_space].
  destruct (Py.is_space c); cbn [andb]; [exact IH | by rewrite append_cons].
Qed.

Lemma rstrip_append (a b : string) :
  Py.rstrip (a +:+ b) = if all_space b then Py.rstrip a else a +:+ Py.rstrip b.
Proof.
  induction a as [|c a IH].
  - change ("" +:+ b) with b. change ("" +:+ Py.rstrip b) with (Py.rstrip b).
    destruct (all_space b) eqn:Hb; [|done].
    by apply rstrip_empty_iff.
  - rewrite append_cons. cbn [Py.rstrip]. rewrite IH.
    destruct (all_space b) eqn:Hb; [done|]. rewrite append_cons.
    destruct (a +:+ Py.rstrip b) as [|d r] eqn:Hr; [|done].
    exfalso. apply (f_equal String.length) in Hr. rewrite length_append in Hr.
    assert (Py.rstrip b = "") as Hrb
      by (destruct (Py.rstrip b); [done | simpl in Hr; lia]).
    apply rstrip_empty_iff in Hrb. congruence.
Qed.

Lemma length_rstrip (s : string) : String.length (Py.rstrip s) ≤ String.length s.
Proof.
  induction s as [|c s IH]; [done|]. cbn [Py.rstrip].
  destruct (Py.rstrip s) as [|d r].
  - destruct (Py.is_space c); simpl; lia.
  - simpl in *. lia.
Qed.

(** The stripped prefix equals the stripped text exactly when what
    follows the prefix is whitespace. *)
Lemma strip_prefix_iff (a b : string) :
  Py.strip a = Py.strip (a +:+ b) ↔ all_space b = true.
Proof.
  unfold Py.strip. rewrite lstrip_append.
  destruct (all_space a) eqn:Ha.
  - assert (Py.lstrip a = "") as -> by by apply lstrip_empty_iff.
    cbn [Py.rstrip]. rewrite <- all_space_lstrip. split.
    + intros Hr. by apply rstrip_empty_iff.
    + intros Hs. symmetry. by apply rstrip_empty_iff.
  - rewrite rstrip_append. destruct (all_space b) eqn:Hb; [done|].
    split; [|done]. intros Heq. exfalso.
    apply (f_equal String.length) in Heq. rewrite length_append in Heq.
    pose proof (length_rstrip (Py.lstrip a)).
    destruct (Py.rstrip b) eqn:Hrb; [|simpl in Heq; lia].
    apply rstrip_empty_iff in Hrb. congruence.
Qed.

(** X12.  With exactly one match, both [parse] methods pass the
    whole-line check exactly when the text after the end of the match is
    whitespace only, wherever the match starts; when that text holds
    anything else, they raise the syntax error that names it. *)
Theorem check_line_by_remainder {G} (grammar : ParserElement G)
    (line : string) (k : list G) (s e : nat) :
  scanString grammar line = [(k, s, e)] →
  (check_line grammar line = Ok () ↔ all_space (Py.drop e line) = true) ∧
  (all_space (Py.drop e line) = false →
   check_line grammar line
   = Err (SyntaxError ("Failed to parse remainder of string: "
                       +:+ Py.repr (Py.drop e line)))).
Proof.
  intros Hscan.
  pose proof (strip_prefix_iff (Py.take e line) (Py.drop e line)) as Hiff.
  rewrite take_drop in Hiff. unfold check_line. rewrite Hscan.
  destruct (String.eqb (Py.strip (Py.take e line)) (Py.strip line)) eqn:E;
    cbn [negb].
  - apply String.eqb_eq in E. apply Hiff in E. split; [done|]. congruence.
  - apply String.eqb_neq in E. split.
    + split; [done|]. intros Hs. by apply Hiff in Hs.
    + done.
Qed.

Lemma check_line_by_remainder_witness :
  check_line (Grammar.opts_spec []) "  Image (a=1)  " = Ok () ∧
  check_line (Grammar.opts_spec []) "Image (a=1) , (b=2)"
  = Err (SyntaxError ("Failed to parse remainder of string: "
                      +:+ Py.repr (Py.drop 11 "Image (a=1) , (b=2)"))).
Proof.
  split.
  - eapply (check_line_by_remainder (Grammar.opts_spec []) "  Image (a=1)  ");
      vm_compute; reflexivity.
  - eapply (check_line_by_remainder (Grammar.opts_spec [])
              "Image (a=1) , (b=2)"); vm_compute; reflexivity.
Defined.

(** ** [OptsSpec.parse], group by group *)

Lemma for_each_Err {A S} (body : S → A → result S) (items : list A)
    (st : S) (e : exn) :
  for_each body items st = Err e ↔
  ∃ before x after st',
    items = before ++ x :: after ∧
    for_each body before st = Ok st' ∧ body st' x = Err e.
Proof.
  split.
  - revert st. induction items as [|x items IH]; intros st; [done|].
    cbn [for_each]. destruct (body st x) as [st1|e1] eqn:Hb; cbn [bind].
    + intros (before & y & after & st' & -> & Hbefore & Hy)%IH.
      exists (x :: before), y, after, st'. split; [done|]. split; [|done].
      cbn [for_each]. by rewrite Hb.
    + intros [= ->]. by exists [], x, items, st.
  - intros (before & x & after & st' & -> & Hbefore & Hx).
    rewrite for_each_app, Hbefore. cbn [bind for_each]. by rewrite Hx.
Qed.

Section OptsGroups.
Variable eval : string → option (gmap string pyval).

Lemma opts_step_Err (acc : gmap string (gmap string Options))
    (g : OptsSpec.spec_group) (e : exn) :
  OptsSpec.parse_step eval acc g = Err e ↔ OptsSpec.group_options eval g = Err e.
Proof.
  unfold OptsSpec.parse_step.
  destruct (OptsSpec.group_options eval g); cbn [bind]; split; congruence.
Qed.

Lemma opts_loop_total (groups : list OptsSpec.spec_group)
    (acc : gmap string (gmap string Options)) :
  Forall (λ g, is_Ok (OptsSpec.group_options eval g)) groups →
  is_Ok (for_each (OptsSpec.parse_step eval) groups acc).
Proof.
  intros Hall. revert acc.
  induction Hall as [|g groups [o Ho] _ IH]; intros acc; [by eexists|].
  cbn [for_each]. unfold OptsSpec.parse_step at 1. rewrite Ho. cbn [bind].
  apply IH.
Qed.

Lemma opts_loop_keys (groups : list OptsSpec.spec_group)
    (acc result : gmap string (gmap string Options)) (p : string) :
  for_each (OptsSpec.parse_step eval) groups acc = Ok result →
  is_Some (result !! p) ↔
  is_Some (acc !! p) ∨ ∃ g, g ∈ groups ∧ OptsSpec.pathspec g = p.
Proof.
  revert acc. induction groups as [|g groups IH]; intros acc; cbn [for_each].
  - intros [= <-]. split; [by left|]. intros [?|(g & Hin & _)]; [done|].
    by apply elem_of_nil in Hin.
  - unfold OptsSpec.parse_step at 1.
    destruct (OptsSpec.group_options eval g) as [o|]; [|done]. cbn [bind].
    intros Hrest. rewrite (IH _ Hrest). rewrite lookup_insert_is_Some. split.
    + intros [[Hp|[_ Hacc]]|(g' & Hin & Hp)].
      * right. exists g. split; [left | done].
      * by left.
      * right. exists g'. split; [by right | done].
    + intros [Hacc|(g' & Hin & Hp)].
      * destruct (decide (OptsSpec.pathspec g = p)); [by left; left|].
        left. right. done.
      * apply elem_of_cons in Hin as [->|Hin]; [by left; left|].
        right. by exists g'.
Qed.

(** X13.  [OptsSpec.parse] fails in one of three ways only: with the
    error of the whole-line check; with pyparsing's exception when the
    line passes the check and [parseString] raises; or with the error of
    the first group whose options fail, the groups before it having
    theirs.  The groups after the failing one play no part. *)
Theorem opts_parse_failure (opts_spec : ParserElement OptsSpec.spec_group)
    (line : string) (e : exn) :
  OptsSpec.parse eval opts_spec line = Err e ↔
  check_line opts_spec line = Err e ∨
  (check_line opts_spec line = Ok () ∧ parseString opts_spec line = Err e) ∨
  (check_line opts_spec line = Ok () ∧
   ∃ before g after,
     parseString opts_spec line = Ok (before ++ g :: after) ∧
     Forall (λ g', is_Ok (OptsSpec.group_options eval g')) before ∧
     OptsSpec.group_options eval g = Err e).
Proof.
  unfold OptsSpec.parse.
  destruct (check_line opts_spec line) as [[]|e0]; cbn [bind].
  2:{ split; [intros [= ->]; by left|].
      by intros [[= ->]|[[[=] _]|[[=] _]]]. }
  destruct (parseString opts_spec line) as [groups|e1]; cbn [bind].
  2:{ split; [intros [= ->]; right; by left|].
      by intros [[=]|[[_ [= ->]]|[_ (before & g & after & [=] & _)]]]. }
  rewrite for_each_Err. split.
  - intros (before & g & after & st' & -> & Hbefore & Hg).
    right. right. split; [done|]. exists before, g, after.
    split; [done|]. split; [by eapply opts_loop_groups|].
    by apply opts_step_Err in Hg.
  - intros [[=]|[[_ [=]]|[_ (before & g & after & [= ->] & Hbefore & Hg)]]].
    destruct (opts_loop_total before ∅ Hbefore) as [st' Hst].
    exists before, g, after, st'. split; [done|]. split; [done|].
    by apply opts_step_Err.
Qed.

(** X14.  When [OptsSpec.parse] returns, its mapping has an entry for
    exactly the paths that head a group of the line, so never more
    entries than groups. *)
Theorem opts_parse_keys (opts_spec : ParserElement OptsSpec.spec_group)
    (line : string) (groups : list OptsSpec.spec_group)
    (result : gmap string (gmap string Options)) :
  OptsSpec.parse eval opts_spec line = Ok result →
  parseString opts_spec line = Ok groups →
  ∀ p, is_Some (result !! p) ↔ ∃ g, g ∈ groups ∧ OptsSpec.pathspec g = p.
Proof.
  intros (_ & groups' & Hparse & Hloop)%opts_parse_Ok Hgroups p.
  rewrite Hgroups in Hparse. injection Hparse as <-.
  rewrite (opts_loop_keys _ _ _ p Hloop). split; [|by right].
  intros [Hempty|?]; [|done]. rewrite lookup_empty in Hempty.
  by destruct Hempty.
Qed.

End OptsGroups.

Lemma opts_parse_failure_witness :
  OptsSpec.parse Literals.eval (Grammar.opts_spec []) "xImage (a=1)"
  = Err ParseException.
Proof.
  apply (opts_parse_failure Literals.eval (Grammar.opts_spec [])
           "xImage (a=1)" ParseException).
  right. left. split; vm_compute; reflexivity.
Defined.

Lemma opts_parse_keys_witness :
  is_Some
    (({[ "Image" := {[ "style" := mkOptions {[ "c" := PyInt 3 ]} ]};
         "Curve" := {[ "style" := mkOptions {[ "b" := PyInt 2 ]} ]} ]}
        : gmap string (gmap string Options)) !! "Curve").
Proof.
  apply (opts_parse_keys Literals.eval (Grammar.opts_spec [])
           "Image (a=1) Curve (b=2) Image (c=3)"
           [style_group "Image" [PStr "a=1"]; style_group "Curve" [PStr "b=2"];
            style_group "Image" [PStr "c=3"]]).
  - vm_compute. reflexivity.
  - vm_compute. reflexivity.
  - exists (style_group "Curve" [PStr "b=2"]). split; [|reflexivity].
    right. left.
Defined.

Lemma normalization_none_iff (g : OptsSpec.spec_group)
    (n : option (gmap string pyval)) :
  OptsSpec.process_normalization g = Ok n →
  n = None ↔
  OptsSpec.norm_options g = None ∨ OptsSpec.norm_options g = Some [].
Proof.
  destruct (OptsSpec.norm_options g) as [opts|] eqn:Hg.
  2:{ unfold OptsSpec.process_normalization. rewrite Hg. intros [= <-].
      split; [by left | done]. }
  destruct (decide (opts = [])) as [->|Hne].
  { unfold OptsSpec.process_normalization. rewrite Hg. intros [= <-].
    split; [by right | done]. }
  destruct (process_normalization_outcome g opts Hg Hne)
    as [[_ ->]|[_ (msg & -> & _)]]; [|done].
  intros [= <-]. split; [done|]. by intros [[=]|[= ->]].
Qed.

(** X15.  The options record of a group has the key [norm] exactly when
    the group has a normalization block that is not empty, the key [plot]
    exactly when it has a plot block, the key [style] exactly when it has
    a style block, and no other key. *)
Theorem group_options_keys (eval : string → option (gmap string pyval))
    (g : OptsSpec.spec_group) (options : gmap string Options) :
  OptsSpec.group_options eval g = Ok options →
  (is_Some (options !! "norm") ↔
   ∃ opts, OptsSpec.norm_options g = Some opts ∧ opts ≠ []) ∧
  (is_Some (options !! "plot") ↔ is_Some (OptsSpec.plot_options g)) ∧
  (is_Some (options !! "style") ↔ is_Some (OptsSpec.style_options g)) ∧
  (∀ k, is_Some (options !! k) → k = "norm" ∨ k = "plot" ∨ k = "style").
Proof.
  unfold OptsSpec.group_options.
  destruct (OptsSpec.process_normalization g) as [n|] eqn:Hn; [|done].
  cbn [bind]. pose proof (normalization_none_iff g n Hn) as Hnone.
  assert (Hnorm : is_Some n ↔
            ∃ opts, OptsSpec.norm_options g = Some opts ∧ opts ≠ []).
  { destruct n as [n|].
    - split; [|done]. intros _.
      destruct (OptsSpec.norm_options g) as [[|t opts]|].
      + destruct Hnone as [_ Hn']. by specialize (Hn' (or_intror eq_refl)).
      + by eexists.
      + destruct Hnone as [_ Hn']. by specialize (Hn' (or_introl eq_refl)).
    - destruct Hnone as [Hn' _]. split; [by intros [? [=]]|].
      intros (opts & Ho & Hne). destruct (Hn' eq_refl) as [?|?]; congruence. }
  clear Hn Hnone.
  destruct (OptsSpec.plot_options g) as [plotopts|].
  - destruct (Parser.todict eval (Some plotopts) "brackets") as [kw|]; [|done].
    cbn [bind]. destruct (OptsSpec.style_options g) as [styleopts|].
    + destruct (Parser.todict eval (Some styleopts) "parens") as [kw'|]; [|done].
      cbn [bind]. intros [= <-]. rewrite <- Hnorm.
      destruct n; repeat split; intros; simplify_map_eq; try done;
        match goal with
        | H : is_Some (_ !! ?k) |- _ =>
            rewrite !lookup_insert_is_Some, ?lookup_empty in H;
            destruct H as [<-|[_ [<-|[_ H]]]]; auto;
            try (destruct H as [<-|[_ H]]; auto); by destruct H
        end.
    + intros [= <-]. rewrite <- Hnorm.
      destruct n; repeat split; intros; simplify_map_eq; try done;
        match goal with
        | H : is_Some (_ !! ?k) |- _ =>
            rewrite !lookup_insert_is_Some, ?lookup_empty in H;
            destruct H as [<-|[_ H]]; auto;
            try (destruct H as [<-|[_ H]]; auto); by destruct H
        end.
  - cbn [bind]. destruct (OptsSpec.style_options g) as [styleopts|].
    + destruct (Parser.todict eval (Some styleopts) "parens") as [kw'|]; [|done].
      cbn [bind]. intros [= <-]. rewrite <- Hnorm.
      destruct n; repeat split; intros; simplify_map_eq; try done;
        match goal with
        | H : is_Some (_ !! ?k) |- _ =>
            rewrite !lookup_insert_is_Some, ?lookup_empty in H;
            destruct H as [<-|[_ H]]; auto;
            try (destruct H as [<-|[_ H]]; auto); by destruct H
        end.
    + intros [= <-]. rewrite <- Hnorm.
      destruct n; repeat split; intros; simplify_map_eq; try done;
        match goal with
        | H : is_Some (_ !! ?k) |- _ =>
            rewrite ?lookup_insert_is_Some, ?lookup_empty in H;
            try (destruct H as [<-|[_ H]]; auto); by destruct H
        end.
Qed.

Lemma group_options_keys_witness :
  (is_Some (({[ "plot" := mkOptions {[ "a" := PyInt 1 ]} ]}
               : gmap string Options) !! "norm") ↔
   ∃ opts, OptsSpec.norm_options empty_norm_group = Some opts ∧ opts ≠ []) ∧
  (is_Some (({[ "plot" := mkOptions {[ "a" := PyInt 1 ]} ]}
               : gmap string Options) !! "plot") ↔
   is_Some (OptsSpec.plot_options empty_norm_group)).
Proof.
  destruct (group_options_keys Literals.eval empty_norm_group
              {[ "plot" := mkOptions {[ "a" := PyInt 1 ]} ]})
    as (Hnorm & Hplot & _).
  { vm_compute. reflexivity. }
  split; [exact Hnorm | exact Hplot].
Defined.

(** ** [CompositorSpec.parse], group by group *)

Section CompositorGroups.
Variable eval : string → option (gmap string pyval).
Variable compositor_spec : ParserElement CompositorSpec.comp_group.
Variable operation : Type.
Variable name : operation → string.
Variable operations : list operation.

Lemma compositor_parse_group_error (line : string)
    (before after : list CompositorSpec.comp_group)
    (g : CompositorSpec.comp_group)
    (definitions : list (Compositor operation)) (e : exn) :
  check_line compositor_spec line = Ok () →
  parseString compositor_spec line = Ok (before ++ g :: after) →
  Forall2 (defines eval (CompositorSpec.opmap operation name operations))
    before definitions →
  CompositorSpec.group_definition eval operation
    (CompositorSpec.opmap operation name operations) g = Err e →
  CompositorSpec.parse eval compositor_spec operation name operations line
  = Err e.
Proof.
  intros Hcheck Hparse Hbefore Hg.
  unfold CompositorSpec.parse. rewrite Hcheck, Hparse. cbn [bind].
  rewrite for_each_app.
  assert (for_each (CompositorSpec.parse_step eval operation
                      (CompositorSpec.opmap operation name operations))
            before [] = Ok definitions) as ->.
  { apply compositor_loop_Ok. by exists definitions. }
  cbn [bind for_each]. unfold CompositorSpec.parse_step at 1. by rewrite Hg.
Qed.

(** X16.  A group whose mode word is neither [data] nor [display] makes
    [CompositorSpec.parse] raise the mode syntax error, whether or not
    its operation is known: the mode is checked before the operation is
    looked up. *)
Theorem compositor_mode_error (line : string)
    (before after : list CompositorSpec.comp_group)
    (g : CompositorSpec.comp_group) (mode : string)
    (definitions : list (Compositor operation)) :
  check_line compositor_spec line = Ok () →
  parseString compositor_spec line = Ok (before ++ g :: after) →
  Forall2 (defines eval (CompositorSpec.opmap operation name operations))
    before definitions →
  CompositorSpec.mode g = Some mode →
  mode ≠ "data" → mode ≠ "display" →
  CompositorSpec.parse eval compositor_spec operation name operations line
  = Err (SyntaxError "Either data or display mode must be specified.").
Proof.
  intros Hcheck Hparse Hbefore Hmode Hd Hp.
  apply (compositor_parse_group_error line before after g definitions);
    try done.
  unfold CompositorSpec.group_definition. rewrite Hmode.
  apply String.eqb_neq in Hd. apply String.eqb_neq in Hp. by rewrite Hd, Hp.
Qed.

(** X17.  A group whose overlay spec holds a nested list, as doubled
    parentheses give, makes [CompositorSpec.parse] raise [TypeError]
    when its mode is valid and its operation known: the tokens of the
    spec cannot be joined. *)
Theorem compositor_nested_spec (line : string)
    (before after : list CompositorSpec.comp_group)
    (g : CompositorSpec.comp_group) (mode : string) (o : operation)
    (definitions : list (Compositor operation)) :
  check_line compositor_spec line = Ok () →
  parseString compositor_spec line = Ok (before ++ g :: after) →
  Forall2 (defines eval (CompositorSpec.opmap operation name operations))
    before definitions →
  CompositorSpec.mode g = Some mode →
  mode = "data" ∨ mode = "display" →
  CompositorSpec.opmap operation name operations !! CompositorSpec.op g
  = Some o →
  holds_nested (CompositorSpec.spec g) = true →
  CompositorSpec.parse eval compositor_spec operation name operations line
  = Err TypeError.
Proof.
  intros Hcheck Hparse Hbefore Hmode Hm Hop Hnested.
  apply (compositor_parse_group_error line before after g definitions);
    try done.
  unfold CompositorSpec.group_definition, CompositorSpec.getitem.
  rewrite Hmode, Hop.
  assert (String.eqb mode "data" || String.eqb mode "display" = true) as ->.
  { apply orb_true_iff. rewrite !String.eqb_eq. done. }
  cbn [negb bind]. by rewrite join_tokens_nested.
Qed.

End CompositorGroups.

Lemma compositor_mode_error_witness :
  CompositorSpec.parse Literals.eval Grammar.compositor_spec () (λ _, "add") [()]
    "weird unknownop (A * B) C"
  = Err (SyntaxError "Either data or display mode must be specified.").
Proof.
  apply (compositor_mode_error Literals.eval Grammar.compositor_spec
           () (λ _, "add") [()] "weird unknownop (A * B) C" [] []
           (compositor_group "weird" "unknownop" ["A"; "*"; "B"] "C" None)
           "weird" []).
  - vm_compute. reflexivity.
  - vm_compute. reflexivity.
  - constructor.
  - reflexivity.
  - discriminate.
  - discriminate.
Defined.

Lemma compositor_nested_spec_witness :
  CompositorSpec.parse Literals.eval Grammar.compositor_spec () (λ _, "add") [()]
    "data add ((A * B)) C"
  = Err TypeError.
Proof.
  apply (compositor_nested_spec Literals.eval Grammar.compositor_spec
           () (λ _, "add") [()] "data add ((A * B)) C" [] []
           {| CompositorSpec.mode := Some "data"; CompositorSpec.op := "add";
              CompositorSpec.spec := [PList [PStr "A"; PStr "*"; PStr "B"]];
              CompositorSpec.value := "C"; CompositorSpec.op_settings := None |}
           "data" () []).
  - vm_compute. reflexivity.
  - vm_compute. reflexivity.
  - constructor.
  - reflexivity.
  - left. reflexivity.
  - vm_compute. reflexivity.
  - reflexivity.
Defined.

(** ** The exceptions of [todict] and of a compositor group *)

Lemma join_tokens_Err (sep : string) (items : list ptoken) (e : exn) :
  join_tokens sep items = Err e → e = TypeError.
Proof.
  induction items as [|[s|l] items IH]; [done| |by intros [= <-]].
  destruct items as [|t items]; [done|]. rewrite join_tokens_cons.
  destruct (join_tokens sep (t :: items)) as [r|e']; [done|].
  cbn [bind]. intros [= <-]. by apply IH.
Qed.

Lemma strip_commas_Err (kw : string) (e : exn) :
  Parser._strip_commas kw = Err e → e = string_index_error.
Proof.
  unfold Parser._strip_commas, Parser.index_str.
  destruct (Py.last kw) as [c|]; [|by intros [= <-]]. cbn [bind].
  destruct (Py.first _); [done | by intros [= <-]].
Qed.

Lemma list_last_Err {A} (xs : list A) (e : exn) :
  list_last xs = Err e → e = list_index_error.
Proof. unfold list_last. destruct (last xs); [done | by intros [= <-]]. Qed.

Lemma collect_tokens_Err (parseresult : option (list ptoken)) (mode : string)
    (e : exn) :
  Parser.collect_tokens parseresult mode = Err e →
  e = list_index_error ∨ e = string_index_error ∨ e = TypeError.
Proof.
  destruct parseresult as [children|]; [|done]. unfold Parser.collect_tokens.
  intros (before & c & after & tokens & _ & _ & Hc)%for_each_Err.
  unfold Parser.collect_step in Hc. destruct c as [s|items].
  - destruct (String.eqb (Py.strip s) ","); [done|].
    destruct (Parser._strip_commas s) as [kw|e'] eqn:Hs; [done|].
    injection Hc as <-. right. left. by apply strip_commas_Err in Hs.
  - destruct (list_last tokens) as [prev|e'] eqn:Hl.
    + cbn [bind] in Hc.
      destruct (join_tokens "" items) as [text|e'] eqn:Hj; [done|].
      injection Hc as <-. right. right. by apply join_tokens_Err in Hj.
    + injection Hc as <-. left. by apply list_last_Err in Hl.
Qed.

Lemma group_tokens_Err (tokens : list string) (e : exn) :
  Parser.group_tokens tokens = Err e → e = list_index_error.
Proof.
  rewrite group_tokens_by_token.
  intros (before & t & after & grouped & _ & _ & Ht)%for_each_Err.
  unfold attach in Ht. destruct (Py.contains "=" t); [done|].
  destruct (list_last grouped) as [prev|e'] eqn:Hl; [done|].
  injection Ht as <-. by apply list_last_Err in Hl.
Qed.

Lemma todict_Err (eval : string → option (gmap string pyval))
    (parseresult : option (list ptoken)) (mode : string) (e : exn) :
  Parser.todict eval parseresult mode = Err e →
  e = list_index_error ∨ e = string_index_error ∨ e = TypeError ∨
  ∃ tokens grouped keyword,
    Parser.collect_tokens parseresult mode = Ok tokens ∧
    Parser.group_tokens tokens = Ok grouped ∧ keyword ∈ grouped ∧
    eval (dict_text keyword) = None ∧ e = SyntaxError (keyword_msg keyword).
Proof.
  unfold Parser.todict.
  destruct (Parser.collect_tokens parseresult mode) as [tokens|e1] eqn:Hc.
  2:{ intros [= <-]. apply collect_tokens_Err in Hc. tauto. }
  cbn [bind].
  destruct (Parser.group_tokens tokens) as [grouped|e2] eqn:Hg.
  2:{ intros [= <-]. apply group_tokens_Err in Hg. tauto. }
  cbn [bind].
  intros (before & keyword & after & kwargs & -> & _ & Hk)%for_each_Err.
  unfold Parser.eval_step in Hk. fold (dict_text keyword) in Hk.
  destruct (eval (dict_text keyword)) eqn:He; [done|]. injection Hk as <-.
  right. right. right. exists tokens, (before ++ keyword :: after), keyword.
  repeat split; try done. apply elem_of_app. right. left.
Qed.

(** X18.  [todict] raises nothing but: the [IndexError] of a list or of a
    string indexed when empty, the [TypeError] of a nested list that
    cannot be joined, and the syntax error that names a fragment, that
    fragment being one of the fragments of the parse result and one that
    does not evaluate. *)
Theorem todict_raises (eval : string → option (gmap string pyval))
    (parseresult : option (list ptoken)) (mode : string) (e : exn) :
  Parser.todict eval parseresult mode = Err e →
  e = IndexError "list index out of range" ∨
  e = IndexError "string index out of range" ∨
  e = TypeError ∨
  ∃ tokens grouped keyword,
    Parser.collect_tokens parseresult mode = Ok tokens ∧
    Parser.group_tokens tokens = Ok grouped ∧ keyword ∈ grouped ∧
    eval (dict_text keyword) = None ∧
    e = SyntaxError ("Could not evaluate keyword: " +:+ Py.repr keyword).
Proof.
  unfold Parser.todict.
  destruct (Parser.collect_tokens parseresult mode) as [tokens|e1] eqn:Hc.
  { cbn [bind].
    destruct (Parser.group_tokens tokens) as [grouped|e2] eqn:Hg.
    - cbn [bind].
      intros (before & keyword & after & kwargs & -> & _ & Hk)%for_each_Err.
      unfold Parser.eval_step in Hk. fold (dict_text keyword) in Hk.
      destruct (eval (dict_text keyword)) eqn:He; [done|]. injection Hk as <-.
      right. right. right.
      exists tokens, (before ++ keyword :: after), keyword.
      repeat split; try done. apply elem_of_app. right. left.
    - intros [= <-]. left. by apply group_tokens_Err in Hg. }
  intros [= <-].
  destruct (collect_tokens_Err _ _ _ Hc) as [->|[->| ->]]; auto.
Qed.

Lemma todict_raises_witness :
  IndexError "string index out of range" = IndexError "list index out of range" ∨
  IndexError "string index out of range" = IndexError "string index out of range" ∨
  IndexError "string index out of range" = TypeError ∨
  ∃ tokens grouped keyword,
    Parser.collect_tokens (Some [PStr "a=1"; PStr ""]) "parens" = Ok tokens ∧
    Parser.group_tokens tokens = Ok grouped ∧ keyword ∈ grouped ∧
    Literals.eval (dict_text keyword) = None ∧
    IndexError "string index out of range"
    = SyntaxError ("Could not evaluate keyword: " +:+ Py.repr keyword).
Proof.
  apply (todict_raises Literals.eval (Some [PStr "a=1"; PStr ""]) "parens").
  reflexivity.
Defined.

(** X19.  The only syntax errors that the definition of a compositor
    group raises are the mode error and the error that names a settings
    fragment; the syntax error for an operation that is not available is
    never raised, the name table being indexed before the test. *)
Theorem compositor_group_syntax_errors
    (eval : string → option (gmap string pyval)) (operation : Type)
    (opmap : gmap string operation) (g : CompositorSpec.comp_group)
    (msg : string) :
  CompositorSpec.group_definition eval operation opmap g
  = Err (SyntaxError msg) →
  (msg = "Either data or display mode must be specified." ∨
   ∃ keyword, msg = "Could not evaluate keyword: " +:+ Py.repr keyword) ∧
  msg ≠ "Operation " +:+ CompositorSpec.op g
        +:+ " not available for use with compositors.".
Proof.
  intros Herr.
  assert (Hmsg : msg = "Either data or display mode must be specified." ∨
                 ∃ keyword, msg = keyword_msg keyword).
  { revert Herr. unfold CompositorSpec.group_definition, CompositorSpec.getitem.
    destruct (CompositorSpec.mode g) as [m|]; [|intros [= <-]; by left].
    destruct (negb _); [intros [= <-]; by left|].
    destruct (opmap !! CompositorSpec.op g) as [o|] eqn:Ho; [|done].
    cbn [bind].
    destruct (join_tokens " " (CompositorSpec.spec g)) as [text|e] eqn:Hj.
    2:{ intros [= ->]. by apply join_tokens_Err in Hj. }
    cbn [bind]. rewrite bool_decide_eq_true_2 by done. cbn [negb].
    destruct (CompositorSpec.op_settings g) as [settings|]; [|done].
    destruct (Parser.todict eval (Some settings) "brackets") as [kw|e] eqn:Ht;
      [done|].
    intros [= ->].
    apply todict_Err in Ht
      as [[=]|[[=]|[[=]|(_ & _ & keyword & _ & _ & _ & _ & [= ->])]]].
    right. by exists keyword. }
  split; [exact Hmsg|].
  intros ->. destruct Hmsg as [Hm|[keyword Hk]].
  - apply (f_equal Py.first) in Hm. vm_compute in Hm. discriminate.
  - apply (f_equal Py.first) in Hk. vm_compute in Hk. discriminate.
Qed.

Lemma compositor_group_syntax_errors_witness :
  ("Could not evaluate keyword: " +:+ Py.repr "kwarg=?"
   = "Either data or display mode must be specified." ∨
   ∃ keyword, "Could not evaluate keyword: " +:+ Py.repr "kwarg=?"
              = "Could not evaluate keyword: " +:+ Py.repr keyword) ∧
  "Could not evaluate keyword: " +:+ Py.repr "kwarg=?"
  ≠ "Operation " +:+ "add" +:+ " not available for use with compositors.".
Proof.
  apply (compositor_group_syntax_errors Literals.eval ()
           (CompositorSpec.opmap () (λ _, "add") [()])
           (compositor_group "data" "add" ["A"; "*"; "B"] "C"
              (Some [PStr "kwarg=?"]))).
  vm_compute. reflexivity.
Defined.

(** ** The name table of the operations *)

Section NameTable.
Variable operation : Type.
Variable name : operation → string.

Lemma opmap_fold_lookup (operations : list operation)
    (acc : gmap string operation) (n : string) :
  foldl (λ m o, <[name o := o]> m) acc operations !! n =
  match last (List.filter (λ o, String.eqb (name o) n) operations) with
  | Some o => Some o
  | None => acc !! n
  end.
Proof.
  revert acc. induction operations as [|o operations IH]; intros acc; [done|].
  cbn [foldl List.filter]. rewrite IH.
  destruct (String.eqb (name o) n) eqn:E.
  - apply String.eqb_eq in E. rewrite last_cons.
    destruct (last (List.filter _ operations)); [done|].
    by rewrite <- E, lookup_insert_eq.
  - apply String.eqb_neq in E.
    destruct (last (List.filter _ operations)); [done|].
    by rewrite lookup_insert_ne.
Qed.

(** X20.  In the name table that [CompositorSpec.parse] builds from the
    registered operations, a name is absent exactly when no operation has
    it, every entry is a registered operation under its own name, and of
    several operations with one name the last registered is the entry. *)
Theorem opmap_lookup (operations : list operation) :
  (∀ n, CompositorSpec.opmap operation name operations !! n = None ↔
        ∀ o, o ∈ operations → name o ≠ n) ∧
  (∀ n o, CompositorSpec.opmap operation name operations !! n = Some o →
          o ∈ operations ∧ name o = n) ∧
  (∀ before o after,
     operations = before ++ o :: after →
     Forall (λ o', name o' ≠ name o) after →
     CompositorSpec.opmap operation name operations !! name o = Some o).
Proof.
  unfold CompositorSpec.opmap. split; [|split].
  - intros n. rewrite opmap_fold_lookup, lookup_empty.
    destruct (last _) as [o|] eqn:Hl.
    + split; [done|]. intros Hall. exfalso.
      apply last_Some_elem_of, list_elem_of_In, filter_In in Hl as [Hin Hn].
      apply String.eqb_eq in Hn. by apply (Hall o); [apply list_elem_of_In|].
    + split; [|done]. intros _ o Hin Hn. apply last_None in Hl.
      assert (In o (List.filter (λ o, String.eqb (name o) n) operations)) as Hf.
      { apply filter_In. split; [by apply list_elem_of_In|].
        by apply String.eqb_eq. }
      by rewrite Hl in Hf.
  - intros n o. rewrite opmap_fold_lookup, lookup_empty.
    destruct (last _) as [o'|] eqn:Hl; [|done]. intros [= ->].
    apply last_Some_elem_of, list_elem_of_In, filter_In in Hl as [Hin Hn].
    split; [by apply list_elem_of_In | by apply String.eqb_eq].
  - intros before o after -> Hafter.
    rewrite opmap_fold_lookup, lookup_empty, List.filter_app.
    cbn [List.filter]. rewrite String.eqb_refl.
    assert (List.filter (λ o0, String.eqb (name o0) (name o)) after = []) as ->.
    { induction Hafter as [|o' after Hn _ IH]; [done|]. cbn [List.filter].
      apply String.eqb_neq in Hn. by rewrite Hn. }
    by rewrite last_snoc.
Qed.

End NameTable.

Lemma opmap_lookup_witness :
  CompositorSpec.opmap (string * nat) fst [("add", 1); ("max", 2); ("add", 3)]
    !! fst ("add", 3)
  = Some ("add", 3).
Proof.
  destruct (opmap_lookup (string * nat) fst
              [("add", 1); ("max", 2); ("add", 3)]) as (_ & _ & Hlast).
  apply (Hlast [("add", 1); ("max", 2)] ("add", 3) []).
  - reflexivity.
  - constructor.
Defined.

(** ** The empty string among the children *)

(** X21.  [collect_tokens] raises the [IndexError] of indexing an empty
    string exactly when the walk reaches a child that is the empty
    string: no other child makes [_strip_commas] fail. *)
Theorem collect_tokens_empty_string (mode : string) (children : list ptoken) :
  Parser.collect_tokens (Some children) mode
  = Err (IndexError "string index out of range") ↔
  ∃ before after,
    children = before ++ PStr "" :: after ∧
    is_Ok (Parser.collect_tokens (Some before) mode).
Proof.
  unfold Parser.collect_tokens. rewrite for_each_Err. split.
  - intros (before & c & after & tokens & -> & Hbefore & Hc).
    exists before, after. split; [|by exists tokens]. f_equal. f_equal.
    unfold Parser.collect_step in Hc. destruct c as [s|items].
    + destruct (String.eqb (Py.strip s) ",") eqn:Es; [done|].
      destruct (decide (s = "")) as [->|Hne]; [done|].
      destruct (decide (s = ",")) as [->|Hsep]; [done|].
      destruct (strip_commas_spec s Hne Hsep) as (core & Hcore & _).
      by rewrite Hcore in Hc.
    + destruct (list_last tokens) as [prev|e'] eqn:Hl.
      * cbn [bind] in Hc.
        destruct (join_tokens "" items) as [text|e'] eqn:Hj; [done|].
        injection Hc as ->. by apply join_tokens_Err in Hj.
      * injection Hc as ->. by apply list_last_Err in Hl.
  - intros (before & after & -> & tokens & Hbefore).
    by exists before, (PStr ""), after, tokens.
Qed.

Lemma collect_tokens_empty_string_witness :
  Parser.collect_tokens (Some ([PStr "a=1"] ++ PStr "" :: [PStr "b=2"])) "parens"
  = Err (IndexError "string index out of range").
Proof.
  apply (collect_tokens_empty_string "parens"
           ([PStr "a=1"] ++ PStr "" :: [PStr "b=2"])).
  exists [PStr "a=1"], [PStr "b=2"]. split; [reflexivity|].
  eexists. reflexivity.
Defined.
